(** * PDBDataset: a shallow embedding of [src/PDBData/PDBDataset.py]

    The dataset container stores references to [PDBMolecule] objects in a
    Python list.  Molecule objects are mutable and shared by reference, so the
    embedding keeps them in an explicit object store and lets the container
    hold locations.  The [PDBMolecule] class, [dgl], [h5py] and [numpy] are
    collaborators of the container: their operations are parameters of the
    development.  The progress lines printed when [self.info] is set are
    left out.  Floating-point numbers are taken as exact rationals where
    concrete arrays are computed. *)

From stdpp Require Import base option list functions gmap strings pretty sorting.
From Stdlib Require Import ZArith QArith Lia Ascii.

Open Scope Z_scope.
Open Scope nat_scope.

(** ** Exceptions and results *)

(** A path is kept as the sequence of its components ([Path.parts]), from the
    directory the relative paths start from.  The component list is the place
    of an entry in the directory tree only when every component is the name of
    an entry ([plain_path] below): the components [.] and [..] are not
    resolved. *)
Definition path := list string.

Inductive exn :=
  | FileExistsError (p : path)
  | NotADirectoryError (p : path)
  | IsADirectoryError (p : path)
  | FileNotFoundError (p : path)
  | IndexError
  | KeyError (k : string)
  | ExternalError (msg : string).

Inductive result (A : Type) :=
  | Ok (a : A)
  | Raise (e : exn).
Arguments Ok {A} a.
Arguments Raise {A} e.

Definition rbind {A B} (r : result A) (k : A → result B) : result B :=
  match r with
  | Ok a => k a
  | Raise e => Raise e
  end.

Definition rmap {A B} (f : A → B) (r : result A) : result B :=
  rbind r (λ a, Ok (f a)).

Notation "'let?' x := r 'in' k" := (rbind r (λ x, k))
  (at level 10, x pattern, r at level 100, k at level 200, only parsing).

Fixpoint rmapM {A B} (f : A → result B) (l : list A) : result (list B) :=
  match l with
  | [] => Ok []
  | x :: l' => let? y := f x in let? ys := rmapM f l' in Ok (y :: ys)
  end.

Definition is_ok {A} (r : result A) : bool :=
  match r with Ok _ => true | Raise _ => false end.

Definition ok_value {A} (r : result A) : option A :=
  match r with Ok a => Some a | Raise _ => None end.

(** ** Python list helpers *)

(** [l[idx]] for a Python int [idx]: negative indices count from the end, an
    index outside [-len, len) raises [IndexError]. *)
Definition py_offset (n : nat) (idx : Z) : Z :=
  if bool_decide (idx < 0)%Z then (Z.of_nat n + idx)%Z else idx.

Definition py_getitem {A} (l : list A) (idx : Z) : result A :=
  let i := py_offset (length l) idx in
  if bool_decide (0 ≤ i)%Z then
    match l !! Z.to_nat i with
    | Some x => Ok x
    | None => Raise IndexError
    end
  else Raise IndexError.

(** [enumerate(l)] *)
Definition enumerate {A} (l : list A) : list (nat * A) := imap pair l.

(** [[x for i, x in enumerate(l) if keep[i]]].  Both filters build [keep] with
    one entry per element of [l], so [keep[i]] is always in range; a missing
    entry selects nothing. *)
Definition select_kept {A} (keep : list bool) (l : list A) : list A :=
  snd <$> filter (λ ix, keep !! ix.1 = Some true) (enumerate l).

(** ** The object store *)

Definition loc := nat.

Section Store.
Context {Mol : Type}.

(** [cell] gives the current state of every object, [next] is the first
    location that has not been handed out. *)
Record store := Store { cell : loc → Mol; next : loc }.

Definition set_cell (σ : store) (l : loc) (m : Mol) : store :=
  Store (<[l := m]> (cell σ)) (next σ).

(** Creation of a fresh object. *)
Definition alloc (σ : store) (m : Mol) : store * loc :=
  (Store (<[next σ := m]> (cell σ)) (S (next σ)), next σ).

(** A method call [obj.meth(...)]: the method reads the object's state and
    leaves a new state behind, together with what it returns. *)
Definition call {R} (σ : store) (l : loc) (meth : Mol → Mol * R) : store * R :=
  let '(m', r) := meth (cell σ l) in (set_cell σ l m', r).

(** The same method called on every entry of a list, first to last, with the
    answers in call order. *)
Fixpoint call_all {R} (meth : Mol → Mol * R) (todo : list loc) (σ : store)
    : store * list R :=
  match todo with
  | [] => (σ, [])
  | l :: todo' =>
      let '(σ1, r) := call σ l meth in
      let '(σ2, rs) := call_all meth todo' σ1 in
      (σ2, r :: rs)
  end.

End Store.
Arguments store : clear implicits.

(** ** The dataset container *)

(** [self.mols] and [self.info] of [PDBDataset.__init__]. *)
Record PDBDataset := { mols : list loc; info : bool }.

(** [PDBDataset()] *)
Definition new_dataset : PDBDataset := {| mols := []; info := true |}.

(** [__len__] *)
Definition len (self : PDBDataset) : nat := length (mols self).

(** [__getitem__] *)
Definition getitem (self : PDBDataset) (idx : Z) : result loc :=
  py_getitem (mols self) idx.

(** [append]: [self.mols.append(mol)], nothing else. *)
Definition append (self : PDBDataset) (mol : loc) : PDBDataset :=
  {| mols := mols self ++ [mol]; info := info self |}.

(** What a check of the conformation count in [append] would give: a record
    without conformations does not get into the container. *)
Definition append_requires_conformation {Mol} (n_confs : Mol → nat) : Prop :=
  ∀ (σ : store Mol) (self : PDBDataset) (mol : loc),
    n_confs (cell σ mol) = 0 → mols (append self mol) = mols self.

(** In-place slice assignment [self.mols[:] = new]. *)
Definition set_mols (self : PDBDataset) (new : list loc) : PDBDataset :=
  {| mols := new; info := info self |}.

(** ** Operations on the stored molecules *)

Section Dataset.

(** Collaborator types: molecule state, floating-point numbers, force fields,
    charge providers and exported graphs. *)
Context {Mol Float ForceField Charges Graph Split : Type}.

(** [PDBMolecule.filter_confs(max_energy, max_force)]: prunes the molecule's
    conformations in place and returns whether the molecule is still viable. *)
Variable mol_filter_confs : Float → option Float → Mol → Mol * bool.

(** [PDBMolecule.conf_check(forcefield, sigmas)] *)
Variable mol_conf_check : ForceField → Float * Float → Mol → Mol * bool.

(** [PDBMolecule.parametrize(forcefield, suffix, get_charges)]: stores the
    computed labels in the molecule; the scorer may raise. *)
Variable mol_parametrize :
  ForceField → string → option Charges → Mol → Mol * result unit.

(** [PDBMolecule.to_dgl(graph_data=True)] *)
Variable mol_to_dgl : Mol → Graph.

(** [dgl.data.utils.split_dataset(glist, split, shuffle=True, random_state)] *)
Variable split_dataset : list Graph → list Float → Z → result Split.

(** *** [filter_confs] *)

(** The loop of lines 152-155: one call per list entry, in list order, each
    appending its answer to [keep]. *)
Fixpoint filter_confs_loop (max_energy : Float) (max_force : option Float)
    (todo : list loc) (σ : store Mol) (keep : list bool) : store Mol * list bool :=
  match todo with
  | [] => (σ, keep)
  | mol :: todo' =>
      let '(σ', more_than2left) :=
        call σ mol (mol_filter_confs max_energy max_force) in
      filter_confs_loop max_energy max_force todo' σ' (keep ++ [more_than2left])
  end.

Definition filter_confs (self : PDBDataset) (max_energy : Float)
    (max_force : option Float) (σ : store Mol) : store Mol * PDBDataset :=
  let '(σ', keep) :=
    filter_confs_loop max_energy max_force (mols self) σ [] in
  (σ', set_mols self (select_kept keep (mols self))).

(** *** [filter_validity] *)

(** The loop of lines 131-136; [removed] only feeds the progress line. *)
Fixpoint filter_validity_loop (forcefield : ForceField) (sigmas : Float * Float)
    (todo : list loc) (σ : store Mol) (keep : list bool) (removed : nat)
    : store Mol * list bool * nat :=
  match todo with
  | [] => (σ, keep, removed)
  | mol :: todo' =>
      let '(σ', valid) := call σ mol (mol_conf_check forcefield sigmas) in
      filter_validity_loop forcefield sigmas todo' σ' (keep ++ [valid])
        (removed + (if valid then 0 else 1))
  end.

Definition filter_validity (self : PDBDataset) (forcefield : ForceField)
    (sigmas : Float * Float) (σ : store Mol) : store Mol * PDBDataset :=
  let '(σ', keep, _) :=
    filter_validity_loop forcefield sigmas (mols self) σ [] 0 in
  (σ', set_mols self (select_kept keep (mols self))).

(** *** [parametrize] *)

(** The loop of lines 117-120.  There is no [try]: the first exception leaves
    the loop, and what was written before it stays written. *)
Fixpoint parametrize_loop (forcefield : ForceField) (suffix : string)
    (get_charges : option Charges) (todo : list loc) (σ : store Mol)
    : store Mol * result unit :=
  match todo with
  | [] => (σ, Ok ())
  | mol :: todo' =>
      let '(σ', r) :=
        call σ mol (mol_parametrize forcefield suffix get_charges) in
      match r with
      | Ok _ => parametrize_loop forcefield suffix get_charges todo' σ'
      | Raise e => (σ', Raise e)
      end
  end.

Definition parametrize (self : PDBDataset) (forcefield : ForceField)
    (suffix : string) (get_charges : option Charges) (σ : store Mol)
    : store Mol * result unit :=
  parametrize_loop forcefield suffix get_charges (mols self) σ.

(** *** [to_dgl] *)

(** [list(range(len(self)))] *)
Definition all_indices (self : PDBDataset) : list Z :=
  Z.of_nat <$> seq 0 (len self).

(** [_get_graph(i, idx)]: [self.mols[idx].to_dgl(graph_data=True)] *)
Definition get_graph (self : PDBDataset) (σ : store Mol) (idx : Z) : result Graph :=
  let? mol := py_getitem (mols self) idx in Ok (mol_to_dgl (cell σ mol)).

Definition to_dgl (self : PDBDataset) (idxs : option (list Z))
    (split : option (list Float)) (seed : Z) (σ : store Mol)
    : result (list Graph + Split) :=
  let idxs := match idxs with None => all_indices self | Some idxs => idxs end in
  let? glist := rmapM (get_graph self σ) idxs in
  match split with
  | None => Ok (inl glist)
  | Some split => rmap inr (split_dataset glist split seed)
  end.

End Dataset.

(** ** Ingestion of a bulk archive *)

Section Ingestion.

Context {Mol Arr PhysUnit : Type}.

(** Lines 194-199: the [numpy] conversions, the change of units, the
    subtraction of the mean energy and [PDBMolecule.from_xyz].  Any of them
    may raise on malformed arrays. *)
Variable build_molecule :
  PhysUnit → PhysUnit → PhysUnit → Arr → Arr → Arr → Arr → result Mol.

(** [group[key]] on a group of the archive. *)
Definition h5_get (g : gmap string Arr) (key : string) : result Arr :=
  match g !! key with
  | Some a => Ok a
  | None => Raise (KeyError key)
  end.

(** The four keys and the three source units of a call. *)
Record h5_format := {
  element_key : string;
  energy_key : string;
  xyz_key : string;
  grad_key : string;
  hdf5_distance : PhysUnit;
  hdf5_energy : PhysUnit;
  hdf5_force : PhysUnit
}.

(** Lines 190-199: everything inside [try] up to the molecule. *)
Definition read_group (fmt : h5_format) (g : gmap string Arr) : result Mol :=
  let? elements := h5_get g (element_key fmt) in
  let? energies := h5_get g (energy_key fmt) in
  let? xyz := h5_get g (xyz_key fmt) in
  let? grads := h5_get g (grad_key fmt) in
  build_molecule (hdf5_distance fmt) (hdf5_energy fmt) (hdf5_force fmt)
    elements xyz energies grads.

(** The local variables of [from_hdf5]. *)
Record ingest_state := {
  obj : PDBDataset;
  counter : nat;
  failed_counter : nat
}.

(** Lines 186-188: [n_max is not None and len(obj) > n_max]. *)
Definition cap_exceeded (n_max : option Z) (d : PDBDataset) : bool :=
  match n_max with
  | Some n => bool_decide (n < Z.of_nat (len d))%Z
  | None => false
  end.

Definition stored (st : ingest_state) (mol : loc) : ingest_state :=
  {| obj := append (obj st) mol;
     counter := S (counter st);
     failed_counter := failed_counter st |}.

Definition failed (st : ingest_state) : ingest_state :=
  {| obj := obj st;
     counter := counter st;
     failed_counter := S (failed_counter st) |}.

(** The loop over [f.keys()]; the archive is the list of its named groups in
    key order. *)
Fixpoint from_hdf5_loop (fmt : h5_format) (n_max : option Z) (skip_errs : bool)
    (f : list (string * gmap string Arr)) (σ : store Mol) (st : ingest_state)
    : store Mol * result ingest_state :=
  match f with
  | [] => (σ, Ok st)
  | (name, g) :: f' =>
      if cap_exceeded n_max (obj st) then (σ, Ok st)
      else
        match read_group fmt g with
        | Ok m =>
            let '(σ', mol) := alloc σ m in
            from_hdf5_loop fmt n_max skip_errs f' σ' (stored st mol)
        | Raise e =>
            if skip_errs then from_hdf5_loop fmt n_max skip_errs f' σ (failed st)
            else (σ, Raise e)
        end
  end.

Definition ingest_start (info : bool) : ingest_state :=
  {| obj := {| mols := []; info := info |}; counter := 0; failed_counter := 0 |}.

Definition from_hdf5 (f : list (string * gmap string Arr)) (fmt : h5_format)
    (n_max : option Z) (skip_errs : bool) (info : bool) (σ : store Mol)
    : store Mol * result PDBDataset :=
  let '(σ', r) := from_hdf5_loop fmt n_max skip_errs f σ (ingest_start info) in
  (σ', rmap obj r).

(** The molecules of the groups that can be read, in archive order, and the
    number of groups that cannot. *)
Definition readable (fmt : h5_format) (f : list (string * gmap string Arr))
    : list Mol :=
  omap (λ ng, ok_value (read_group fmt ng.2)) f.

Definition unreadable (fmt : h5_format) (f : list (string * gmap string Arr)) : nat :=
  length (filter (λ ng, is_ok (read_group fmt ng.2) = false) f).

(** How many more molecules the cap lets in when the container holds [k]. *)
Definition within_cap {A} (n_max : option Z) (k : nat) (l : list A) : list A :=
  match n_max with
  | Some n => take (Z.to_nat (n + 1) - k) l
  | None => l
  end.

End Ingestion.
Arguments h5_format : clear implicits.

(** ** Per-molecule archives on a file system *)

(** [name.endswith(suf)] *)
Fixpoint ends_with (suf s : string) : bool :=
  if decide (s = suf) then true
  else match s with
       | EmptyString => false
       | String _ s' => ends_with suf s'
       end.

(** Order of [Path] objects: the component lists are compared like Python
    lists, the components like Python strings. *)
Fixpoint path_leb (p q : path) : bool :=
  match p, q with
  | [], _ => true
  | _ :: _, [] => false
  | a :: p', b :: q' =>
      if decide (a = b) then path_leb p' q' else bool_decide (String.le a b)
  end.

Definition path_le (p q : path) : Prop := path_leb p q = true.

#[global] Instance path_le_dec : RelDecision path_le :=
  λ p q, decide (path_leb p q = true).

(** [sorted(paths)] *)
Definition sorted (paths : list path) : list path := merge_sort path_le paths.

(** The name of a directory entry: not empty, not [.] or [..], and without a
    separator. *)
Fixpoint has_slash (s : string) : bool :=
  match s with
  | EmptyString => false
  | String a s' => bool_decide (a = "/"%char) || has_slash s'
  end.

Definition is_name (c : string) : bool :=
  negb (bool_decide (c = "")) && negb (bool_decide (c = ".")) &&
  negb (bool_decide (c = "..")) && negb (has_slash c).

(** A path that names a place in the tree below the starting directory: at
    least one component, every component a name.  For such a path the
    operations below look at the place the code looks at; the theorems on
    [save_npz] and [load_npz] that speak about what lies at or below a path
    are stated for plain paths. *)
Definition plain_path (p : path) : bool :=
  negb (bool_decide (p = [])) && forallb is_name p.

(** [str(id) + ".npz"] *)
Definition npz_name (id : nat) : string := pretty id +:+ ".npz".

(** [Path(path)/Path(str(id)+".npz")], and the archive paths [save_npz]
    writes for [n] molecules below [p]. *)
Definition npz_path (p : path) (id : nat) : path := p ++ [npz_name id].

Definition npz_paths (p : path) (n : nat) : list path := npz_path p <$> seq 0 n.

(** Two positions compared by the names of their archives. *)
Definition name_le (i j : nat) : Prop := String.le (npz_name i) (npz_name j).

#[global] Instance name_le_dec : RelDecision name_le :=
  λ i j, decide (String.le (npz_name i) (npz_name j)).

(** A string that sorts after [10.npz] whatever follows it. *)
Definition after_ten (t : string) : Prop :=
  ∀ s, String.compare "10.npz" (t +:+ s) = Lt.

(** The positions [0 .. n-1] in the order in which their archives sort. *)
Definition load_order (n : nat) : list nat := merge_sort name_le (seq 0 n).

Section Persistence.

Context {Mol Npz : Type}.

(** The content [PDBMolecule.compress] writes for a molecule, and what
    [PDBMolecule.load] makes of a file's content. *)
Variable mol_compress : Mol → Npz.
Variable mol_load : Npz → result Mol.

(** The file system maps the place of every entry to what is there; the
    keys are places, as a plain path gives them. *)
Inductive node := File (c : Npz) | Dir.

(** [os.path.exists] of a plain path. *)
Definition path_exists (fs : gmap path node) (p : path) : bool :=
  bool_decide (is_Some (fs !! p)).

(** [os.makedirs(path, exist_ok=True)] of a plain path, one component after
    the other.  A file at the path itself is reported by [mkdir] as
    [FileExistsError]; a file above it as [NotADirectoryError] for the first
    directory that [mkdir] is asked to make below that file. *)
Fixpoint makedirs_from (pre rest : path) (fs : gmap path node)
    : gmap path node * result unit :=
  match rest with
  | [] => (fs, Ok ())
  | c :: rest' =>
      let d := pre ++ [c] in
      match fs !! d with
      | Some (File _) =>
          (fs, Raise (match rest' with
                      | [] => FileExistsError d
                      | c' :: _ => NotADirectoryError (d ++ [c'])
                      end))
      | Some Dir => makedirs_from d rest' fs
      | None => makedirs_from d rest' (<[d := Dir]> fs)
      end
  end.

Definition makedirs (p : path) (fs : gmap path node) : gmap path node * result unit :=
  makedirs_from [] p fs.

(** Opening [file] for writing walks down to its directory: a missing
    component on the way is [FileNotFoundError], a file on the way
    [NotADirectoryError], both for [file]. *)
Fixpoint open_dir (file pre rest : path) (fs : gmap path node) : result unit :=
  match rest with
  | [] => Ok ()
  | c :: rest' =>
      match fs !! (pre ++ [c]) with
      | Some Dir => open_dir file (pre ++ [c]) rest' fs
      | Some (File _) => Raise (NotADirectoryError file)
      | None => Raise (FileNotFoundError file)
      end
  end.

(** [mol.compress(file)]: the archive is written into an existing directory,
    over a file of the same name if there is one. *)
Definition compress_to (file : path) (m : Mol) (fs : gmap path node)
    : gmap path node * result unit :=
  match open_dir file [] (removelast file) fs with
  | Ok _ =>
      match fs !! file with
      | Some Dir => (fs, Raise (IsADirectoryError file))
      | _ => (<[file := File (mol_compress m)]> fs, Ok ())
      end
  | Raise e => (fs, Raise e)
  end.

(** Lines 73-74. *)
Fixpoint save_npz_loop (p : path) (todo : list (nat * loc)) (σ : store Mol)
    (fs : gmap path node) : gmap path node * result unit :=
  match todo with
  | [] => (fs, Ok ())
  | (id, mol) :: todo' =>
      let '(fs', r) := compress_to (npz_path p id) (cell σ mol) fs in
      match r with
      | Ok _ => save_npz_loop p todo' σ fs'
      | Raise e => (fs', Raise e)
      end
  end.

Definition save_npz (self : PDBDataset) (p : path) (overwrite : bool)
    (σ : store Mol) (fs : gmap path node) : gmap path node * result unit :=
  if path_exists fs p && negb overwrite then (fs, Raise (FileExistsError p))
  else
    let '(fs', r) := makedirs p fs in
    match r with
    | Ok _ => save_npz_loop p (enumerate (mols self)) σ fs'
    | Raise e => (fs', Raise e)
    end.

(** [Path(path).rglob('*.npz')] for a plain path [p]: every entry below the
    place [p], at any depth, whose name ends in [.npz].  The enumeration order
    of the map stands for the order of the directory traversal. *)
Definition is_npz_below (p k : path) : bool :=
  bool_decide (p `prefix_of` k) && negb (bool_decide (p = k)) &&
  match last k with
  | Some name => ends_with ".npz" name
  | None => false
  end.

Definition rglob_npz (p : path) (fs : gmap path node) : list path :=
  filter (λ k, is_npz_below p k = true) (fst <$> map_to_list fs).

(** [PDBMolecule.load(Path(npz))] *)
Definition load_from (file : path) (fs : gmap path node) : result Mol :=
  match fs !! file with
  | Some (File c) => mol_load c
  | Some Dir => Raise (IsADirectoryError file)
  | None => Raise (FileNotFoundError file)
  end.

(** Lines 96-98. *)
Fixpoint load_npz_loop (paths : list path) (fs : gmap path node)
    (σ : store Mol) (obj : PDBDataset) : store Mol * result PDBDataset :=
  match paths with
  | [] => (σ, Ok obj)
  | npz :: paths' =>
      match load_from npz fs with
      | Ok m =>
          let '(σ', mol) := alloc σ m in
          load_npz_loop paths' fs σ' (append obj mol)
      | Raise e => (σ, Raise e)
      end
  end.

Definition load_npz (p : path) (keep_order : bool) (fs : gmap path node)
    (σ : store Mol) : store Mol * result PDBDataset :=
  let paths := if keep_order then sorted (rglob_npz p fs) else rglob_npz p fs in
  load_npz_loop paths fs σ new_dataset.

End Persistence.
Arguments node : clear implicits.
Arguments File {Npz} c.
Arguments Dir {Npz}.

(** ** A small molecule record *)

(** Modelled from the spec: the [PDBMolecule] class is not among the sources.
    This record follows the Molecule Record of the data model (elements, an
    ordered collection of conformations with reference energy and force,
    named label sets) in integer units, and its operations follow the
    contracts of the conformation-window filter, of parametrization and of the
    validity filter.  It instantiates the collaborator parameters on concrete
    inputs. *)
Module Simple.

Record conformation := { energy : Z; force : Z }.

Record molecule := {
  elements : list Z;
  confs : list conformation;
  labels : list (string * list (Z * Z))
}.

Definition n_confs (m : molecule) : nat := length (confs m).

Definition min_energy (m : molecule) : Z :=
  foldr Z.min (default 0%Z (head (energy <$> confs m))) (energy <$> confs m).

Definition within (max_energy : Z) (max_force : option Z) (emin : Z)
    (c : conformation) : bool :=
  bool_decide (energy c - emin ≤ max_energy)%Z &&
  match max_force with
  | Some f => bool_decide (Z.abs (force c) ≤ f)%Z
  | None => true
  end.

(** Modelled from the spec: the conformation-window filter.  Keep a
    conformation iff its energy is within [max_energy] of the molecule's own
    minimum and its force within [max_force]; answer whether at least 2
    conformations remain. *)
Definition filter_confs (max_energy : Z) (max_force : option Z) (m : molecule)
    : molecule * bool :=
  let kept :=
    filter (λ c, within max_energy max_force (min_energy m) c = true) (confs m) in
  ({| elements := elements m; confs := kept; labels := labels m |},
   bool_decide (2 ≤ length kept)).

(** Modelled from the spec: the scorer interface.  A scorer gives an energy
    and a force for a conformation of a molecule with the given elements, or
    fails. *)
Definition scorer := list Z → conformation → option (Z * Z).

Definition score_all (ff : scorer) (m : molecule) : option (list (Z * Z)) :=
  mapM (ff (elements m)) (confs m).

Definition set_label (name : string) (v : list (Z * Z))
    (ls : list (string * list (Z * Z))) : list (string * list (Z * Z)) :=
  (name, v) :: filter (λ kv, kv.1 ≠ name) ls.

(** Modelled from the spec: parametrization of one molecule.  The label
    named [suffix] is overwritten, never duplicated; a scorer failure
    surfaces and leaves the molecule as it was. *)
Definition parametrize (ff : scorer) (suffix : string) (get_charges : option unit)
    (m : molecule) : molecule * result unit :=
  match score_all ff m with
  | Some v =>
      ({| elements := elements m; confs := confs m;
          labels := set_label suffix v (labels m) |}, Ok ())
  | None => (m, Raise (ExternalError "scorer"))
  end.

Definition sum_sq (l : list Z) : Z := foldr (λ x a, x * x + a)%Z 0%Z l.

(** Modelled from the spec: the two criteria of the validity filter, in the
    squared form of [rms(error) <= sigma * rms(baseline)], the baseline
    taken around zero. *)
Definition energy_criterion (ff : scorer) (sigma : Z) (m : molecule) : bool :=
  match score_all ff m with
  | Some v =>
      bool_decide (sum_sq (zip_with (λ p c, p.1 - energy c)%Z v (confs m))
                   ≤ sigma * sigma * sum_sq (energy <$> confs m))%Z
  | None => false
  end.

Definition force_criterion (ff : scorer) (sigma : Z) (m : molecule) : bool :=
  match score_all ff m with
  | Some v =>
      bool_decide (sum_sq (zip_with (λ p c, p.2 - force c)%Z v (confs m))
                   ≤ sigma * sigma * sum_sq (force <$> confs m))%Z
  | None => false
  end.

(** Modelled from the spec: a molecule is valid only if both criteria
    pass; the check reads the molecule only. *)
Definition conf_check (ff : scorer) (sigmas : Z * Z) (m : molecule)
    : molecule * bool :=
  (m, energy_criterion ff sigmas.1 m && force_criterion ff sigmas.2 m).

Definition to_dgl (m : molecule) : list Z * list Z :=
  (elements m, energy <$> confs m).

Definition split_dataset (glist : list (list Z * list Z)) (split : list Z)
    (seed : Z) : result (list (list (list Z * list Z))) :=
  match split with
  | [] => Raise (ExternalError "split")
  | k :: _ => Ok [take (Z.to_nat k) glist; drop (Z.to_nat k) glist]
  end.

(** A store whose objects are the molecules of a list. *)
Definition store_of (ms : list molecule) : store molecule :=
  Store (λ l, default {| elements := []; confs := []; labels := [] |} (ms !! l))
        (length ms).

Definition mol_of_energies (es : list Z) : molecule :=
  {| elements := [6; 1]%Z;
     confs := (λ e, {| energy := e; force := 0 |}) <$> es;
     labels := [] |}.

(** The molecules of scenarios A and B, and one with an element no force
    field has a template for. *)
Definition mol_a : molecule := mol_of_energies [0; 10; 100]%Z.
Definition mol_b : molecule := mol_of_energies [0; 200]%Z.
Definition mol_c : molecule :=
  {| elements := [0]%Z; confs := [{| energy := 0; force := 0 |}]; labels := [] |}.

(** A scorer that reproduces the reference and fails on element 0. *)
Definition template_scorer : scorer :=
  λ els c, if bool_decide (0%Z ∈ els) then None else Some (energy c, force c).

Definition demo_store : store molecule := store_of [mol_a; mol_b; mol_c].
Definition demo_dataset : PDBDataset := {| mols := [0; 1]; info := false |}.
Definition demo_dataset3 : PDBDataset := {| mols := [0; 2; 1]; info := false |}.

(** Eleven molecules, the one at position [i] with energies [-i] and [i]. *)
Definition mol_i (i : nat) : molecule :=
  mol_of_energies [- Z.of_nat i; Z.of_nat i]%Z.
Definition store11 : store molecule := store_of (mol_i <$> seq 0 11).
Definition dataset11 : PDBDataset := {| mols := seq 0 11; info := false |}.

End Simple.

(** ** The arrays of an archive group on numbers *)

(** Lines 194-197 on concrete arrays.  An array of the archive is a flat list
    of integers; a floating-point array is a list of rationals in lowest
    terms, so the arithmetic is exact where [numpy] rounds; a unit is its
    factor to the canonical unit of its dimension. *)
Module Arrays.

(** [np.array(a)] as a floating-point array. *)
Definition np_array (a : list Z) : list Q := inject_Z <$> a.

(** [Quantity(a, u).value_in_unit(canonical)] *)
Definition value_in_unit (u : Q) (a : list Q) : list Q :=
  (λ x, Qred (x * u)%Q) <$> a.

(** [a.mean(axis=-1)] of a one-dimensional array.  For the empty array
    [numpy] gives [nan] and a warning, not an exception; the value is not
    used then, there being nothing to subtract it from. *)
Definition mean (a : list Q) : Q :=
  Qred (foldr Qplus 0%Q a / inject_Z (Z.of_nat (length a)))%Q.

(** [a - a.mean(axis=-1)] *)
Definition centred (a : list Q) : list Q := (λ x, Qred (x - mean a)%Q) <$> a.

(** What [PDBMolecule.from_xyz] is given. *)
Record molecule := {
  elements : list Z;
  xyz : list Q;
  energies : list Q;
  gradients : list Q
}.

(** Modelled from the spec: [PDBMolecule.from_xyz] builds a record from
    arrays that fit, one energy and one gradient entry per conformation and
    at least one conformation; malformed shapes are an error of the record. *)
Definition from_xyz (elements : list Z) (xyz energies gradients : list Q)
    : result molecule :=
  if bool_decide (length energies = length gradients ∧ length energies ≠ 0) then
    Ok {| elements := elements; xyz := xyz; energies := energies;
          gradients := gradients |}
  else Raise (ExternalError "shape").

(** Lines 194-199. *)
Definition build_molecule (hdf5_distance hdf5_energy hdf5_force : Q)
    (elements xyz energies grads : list Z) : result molecule :=
  let elements := elements in
  let xyz := value_in_unit hdf5_distance (np_array xyz) in
  let grads := value_in_unit hdf5_force (np_array grads) in
  let energies := value_in_unit hdf5_energy (centred (np_array energies)) in
  from_xyz elements xyz energies grads.

(** An archive in the layout of scenario D: three groups, the second without
    gradients.  The energies 1 and 4 have the mean 5/2. *)
Definition demo_format : h5_format Q :=
  {| element_key := "atomic_numbers";
     energy_key := "dft_total_energy";
     xyz_key := "conformations";
     grad_key := "dft_total_gradient";
     hdf5_distance := 1%Q; hdf5_energy := 1%Q; hdf5_force := 1%Q |}.

Definition good_group : gmap string (list Z) :=
  list_to_map [("atomic_numbers", [6; 1]%Z); ("dft_total_energy", [1; 4]%Z);
               ("conformations", [0; 0; 0; 1; 1; 1]%Z);
               ("dft_total_gradient", [2; 4]%Z)].

Definition bad_group : gmap string (list Z) := delete "dft_total_gradient" good_group.

Definition demo_archive : list (string * gmap string (list Z)) :=
  [("a", good_group); ("b", bad_group); ("c", good_group)].

(** A store that holds three records before the ingestion. *)
Definition empty_record : molecule :=
  {| elements := []; xyz := []; energies := []; gradients := [] |}.

Definition demo_store : store molecule := Store (λ _, empty_record) 3.

End Arrays.

(** * The rest of the container and the key migration *)

(** ** [load], [save_dgl] and [from_spice] *)

(** [load]: the body builds an empty container and returns it. *)
Definition load (pth : path) : PDBDataset := new_dataset.

Section GraphFiles.
Context {Mol Float Graph Split Disk : Type}.
Variable mol_to_dgl : Mol → Graph.
Variable split_dataset : list Graph → list Float → Z → result Split.

(** [dgl.save_graphs(path, graphs)] on whatever holds the graph files. *)
Variable save_graphs : path → list Graph + Split → Disk → Disk * result unit.


End GraphFiles.

(** ** [to_dgl] with a conversion that may raise *)

(** Lines 42-57 once more.  Above, [PDBMolecule.to_dgl] is a function that
    returns a graph; here the call on line 49 may raise, like any call of a
    method, and the exception leaves the list comprehension of line 53. *)
Module Raising.
Section ToDgl.
Context {Mol Float Graph Split : Type}.
Variable mol_to_dgl : Mol → result Graph.
Variable split_dataset : list Graph → list Float → Z → result Split.

(** [_get_graph(i, idx)]: the index is looked up first, then the molecule is
    converted. *)
Definition get_graph (self : PDBDataset) (σ : store Mol) (idx : Z) : result Graph :=
  let? mol := py_getitem (mols self) idx in mol_to_dgl (cell σ mol).

Definition to_dgl (self : PDBDataset) (idxs : option (list Z))
    (split : option (list Float)) (seed : Z) (σ : store Mol)
    : result (list Graph + Split) :=
  let idxs := match idxs with None => all_indices self | Some idxs => idxs end in
  let? glist := rmapM (get_graph self σ) idxs in
  match split with
  | None => Ok (inl glist)
  | Some split => rmap inr (split_dataset glist split seed)
  end.

End ToDgl.
End Raising.

Section Spice.
Context {Mol Arr PhysUnit : Type}.
Variable build_molecule :
  PhysUnit → PhysUnit → PhysUnit → Arr → Arr → Arr → Arr → result Mol.

(** [bohr], [hartree], the unit [PARTICLE] made from [mole], and the quotient
    of two units. *)
Variables (bohr hartree PARTICLE : PhysUnit).
Variable unit_div : PhysUnit → PhysUnit → PhysUnit.

(** [from_spice]: [from_hdf5] with the keys and units of the SPICE archive;
    [n_max] and [skip_errs] stay at their defaults. *)
Definition from_spice (f : list (string * gmap string Arr)) (info : bool)
    (σ : store Mol) : store Mol * result PDBDataset :=
  let HARTREE_PER_PARTICLE := unit_div hartree PARTICLE in
  let SPICE_DISTANCE := bohr in
  let SPICE_ENERGY := HARTREE_PER_PARTICLE in
  let SPICE_FORCE := unit_div SPICE_ENERGY SPICE_DISTANCE in
  from_hdf5 build_molecule f
    {| element_key := "atomic_numbers";
       energy_key := "dft_total_energy";
       xyz_key := "conformations";
       grad_key := "dft_total_gradient";
       hdf5_distance := SPICE_DISTANCE;
       hdf5_energy := SPICE_ENERGY;
       hdf5_force := SPICE_FORCE |}
    None true info σ.

End Spice.

(** ** States of an archive directory *)

(** Below [p] there are exactly the archives of the positions [0 .. n-1],
    with the given contents, and no file stands where [p] or a directory
    above it should be. *)
Definition holds_archives {Npz} (p : path) (n : nat) (content : nat → Npz)
    (fs : gmap path (node Npz)) : Prop :=
  (∀ i, i < n → fs !! npz_path p i = Some (File (content i))) ∧
  (∀ k : path, p `prefix_of` k → p ≠ k → is_Some (fs !! k) → k ∈ npz_paths p n) ∧
  (∀ (q : path) c, q `prefix_of` p → fs !! q ≠ Some (File c)).

(** Every directory on the way down to [p], and [p] itself, is there. *)
Definition dirs_to {Npz} (p : path) (fs : gmap path (node Npz)) : Prop :=
  ∀ q : path, q ≠ [] → q `prefix_of` p → fs !! q = Some Dir.

(** ** [charge_models/to_json.py]: the renaming of the keys *)

Section ToJson.
Context {V : Type}.

(** [str.upper] *)
Variable upper : string → string.

(** [d[k.upper()] = d.pop(k)]: the right-hand side first, [KeyError] when
    [k] is no key. *)
Definition rename_key (d : gmap string V) (k : string) : result (gmap string V) :=
  match d !! k with
  | Some v => Ok (<[upper k := v]> (delete k d))
  | None => Raise (KeyError k)
  end.

(** Lines 16-18: [old_keys = list(d.keys())], then the loop over them.  The
    list carries the order of the dictionary. *)
Fixpoint rename_keys (old_keys : list string) (d : gmap string V)
    : result (gmap string V) :=
  match old_keys with
  | [] => Ok d
  | k :: old_keys' => let? d' := rename_key d k in rename_keys old_keys' d'
  end.

(** The last key in the order that is renamed to [K] without being [K]. *)
Definition last_renamed_to (old_keys : list string) (K : string) : option string :=
  last (filter (λ k, upper k = K ∧ k ≠ K) old_keys).

End ToJson.

(** Upper case of the ASCII letters, for concrete inputs. *)
Definition upper_char (c : ascii) : ascii :=
  let n := nat_of_ascii c in
  if (97 <=? n) && (n <=? 122) then ascii_of_nat (n - 32) else c.

Fixpoint upper_ascii (s : string) : string :=
  match s with
  | EmptyString => EmptyString
  | String c s' => String (upper_char c) (upper_ascii s')
  end.

(** ** Concrete inputs for the rest of the container *)

Module Demo.



(** A charge dictionary with mixed-case residue names, and one where a name
    occurs in two spellings. *)
Definition charges : gmap string Z := <["ala" := 1%Z]> (<["Gly" := 2%Z]> ∅).
Definition charges_clash : gmap string Z := <["ALA" := 1%Z]> (<["ala" := 2%Z]> ∅).

Definition good_archive : list (string * gmap string (list Z)) :=
  [("a", Arrays.good_group); ("c", Arrays.good_group)].

Definition short_dataset : PDBDataset := {| mols := [2]; info := false |}.

(** A conversion that raises for a molecule with the element 0. *)
Definition to_dgl_checked (m : Simple.molecule) : result (list Z * list Z) :=
  if bool_decide (0%Z ∈ Simple.elements m) then Raise (ExternalError "graph")
  else Ok (Simple.to_dgl m).

End Demo.

(** * Properties *)

(** ** Lists and the object store *)

Lemma select_kept_nil {A} (keep : list bool) : select_kept keep (@nil A) = [].
Proof. reflexivity. Qed.

Lemma filter_fmap_comm {A B} (f : A → B) (P : B → Prop) `{∀ y, Decision (P y)}
    (l : list A) :
  filter P (f <$> l) = f <$> filter (λ x, P (f x)) l.
Proof.
  induction l as [|x l IH]; [done|].
  rewrite fmap_cons, !filter_cons, IH. by destruct (decide (P (f x))).
Qed.

Lemma select_kept_cons {A} (b : bool) (keep : list bool) (x : A) (l : list A) :
  select_kept (b :: keep) (x :: l) = (if b then [x] else []) ++ select_kept keep l.
Proof.
  unfold select_kept, enumerate. cbn [imap].
  rewrite filter_cons. cbn [fst lookup list_lookup].
  assert (snd <$> filter (λ ix : nat * A, (b :: keep) !! ix.1 = Some true)
            (imap (pair ∘ S) l)
          = snd <$> filter (λ ix : nat * A, keep !! ix.1 = Some true) (imap pair l))
    as Htl.
  { assert (imap (pair ∘ S) l = prod_map S id <$> imap (@pair nat A) l) as ->.
    { rewrite fmap_imap. by apply imap_ext. }
    rewrite filter_fmap_comm, <- list_fmap_compose.
    apply list_fmap_ext. by intros ? []. }
  destruct b.
  - rewrite decide_True by done. rewrite fmap_cons. simpl. by rewrite Htl.
  - rewrite decide_False by done. simpl. by rewrite Htl.
Qed.

Lemma select_kept_fmap {A} (g : A → bool) (l : list A) :
  select_kept (g <$> l) l = filter (λ x, g x = true) l.
Proof.
  induction l as [|x l IH]; [done|].
  rewrite fmap_cons, select_kept_cons, IH, filter_cons.
  destruct (decide (g x = true)) as [E|E].
  - by rewrite E.
  - by destruct (g x).
Qed.

Lemma select_kept_sublist {A} (keep : list bool) (l : list A) :
  select_kept keep l `sublist_of` l.
Proof.
  revert keep. induction l as [|x l IH]; intros keep; [done|].
  destruct keep as [|b keep].
  - assert (select_kept [] (x :: l) = []) as ->; [|apply sublist_nil_l].
    unfold select_kept. induction (enumerate (x :: l)) as [|[i y] t IHt]; [done|].
    rewrite filter_cons, decide_False; [done|]. by rewrite lookup_nil.
  - rewrite select_kept_cons. destruct b; cbn [app].
    + by apply sublist_skip.
    + by apply sublist_cons.
Qed.

Section StoreFacts.
Context {Mol : Type}.
Implicit Types (σ : store Mol) (l : loc).

Lemma cell_set_cell_eq σ l (m : Mol) : cell (set_cell σ l m) l = m.
Proof. apply fn_lookup_insert. Qed.

Lemma cell_set_cell_ne σ l l' (m : Mol) : l ≠ l' → cell (set_cell σ l m) l' = cell σ l'.
Proof. intros. by apply fn_lookup_insert_ne. Qed.

Lemma call_eq {R} σ l (meth : Mol → Mol * R) :
  call σ l meth = (set_cell σ l (meth (cell σ l)).1, (meth (cell σ l)).2).
Proof. unfold call. by destruct (meth (cell σ l)). Qed.

Lemma call_all_length {R} (meth : Mol → Mol * R) todo σ :
  length (call_all meth todo σ).2 = length todo.
Proof.
  revert σ. induction todo as [|l todo IH]; intros σ; [done|].
  simpl. rewrite call_eq. specialize (IH (set_cell σ l (meth (cell σ l)).1)).
  destruct (call_all meth todo _). cbn [fst snd length] in *. by rewrite IH.
Qed.

(** Objects outside the list are not touched. *)
Lemma call_all_frame {R} (meth : Mol → Mol * R) todo σ l :
  l ∉ todo → cell (call_all meth todo σ).1 l = cell σ l.
Proof.
  revert σ. induction todo as [|l0 todo IH]; intros σ Hl; [done|].
  simpl. rewrite call_eq.
  specialize (IH (set_cell σ l0 (meth (cell σ l0)).1)).
  destruct (call_all meth todo _) as [σ2 rs]. cbn [fst snd] in *.
  rewrite IH by set_solver. apply cell_set_cell_ne. set_solver.
Qed.

Lemma call_all_next {R} (meth : Mol → Mol * R) todo σ :
  next (call_all meth todo σ).1 = next σ.
Proof.
  revert σ. induction todo as [|l0 todo IH]; intros σ; [done|].
  simpl. rewrite call_eq.
  specialize (IH (set_cell σ l0 (meth (cell σ l0)).1)).
  destruct (call_all meth todo _) as [σ2 rs]. cbn [fst snd] in *. by rewrite IH.
Qed.

(** Without aliasing every object sees exactly one call, on its initial
    state. *)
Lemma call_all_NoDup {R} (meth : Mol → Mol * R) todo σ :
  NoDup todo →
  (call_all meth todo σ).2 = (λ l, (meth (cell σ l)).2) <$> todo ∧
  ∀ l, l ∈ todo → cell (call_all meth todo σ).1 l = (meth (cell σ l)).1.
Proof.
  revert σ. induction todo as [|l0 todo IH]; intros σ Hnd.
  { split; [done|]. intros l Hl. by apply elem_of_nil in Hl. }
  apply NoDup_cons in Hnd as [Hl0 Hnd].
  simpl. rewrite call_eq.
  pose proof (IH (set_cell σ l0 (meth (cell σ l0)).1) Hnd) as [IH1 IH2].
  pose proof (call_all_frame meth todo (set_cell σ l0 (meth (cell σ l0)).1) l0 Hl0) as Hfr.
  destruct (call_all meth todo _) as [σ2 rs]. cbn [fst snd] in *. split.
  - f_equal. rewrite IH1. apply list_fmap_ext. intros i l Hi. cbv beta.
    rewrite cell_set_cell_ne; [done|]. intros ->.
    apply Hl0. by eapply list_elem_of_lookup_2.
  - intros l [->|Hl]%elem_of_cons.
    + by rewrite Hfr, cell_set_cell_eq.
    + rewrite (IH2 l Hl), cell_set_cell_ne; [done|]. by intros ->.
Qed.

(** A method that leaves its object as it found it can be called on a
    shared object any number of times. *)
Lemma call_all_readonly {R} (meth : Mol → Mol * R) todo σ :
  (∀ l, l ∈ todo → (meth (cell σ l)).1 = cell σ l) →
  (call_all meth todo σ).2 = (λ l, (meth (cell σ l)).2) <$> todo ∧
  ∀ l, cell (call_all meth todo σ).1 l = cell σ l.
Proof.
  revert σ. induction todo as [|l0 todo IH]; intros σ Hro; [done|].
  simpl. rewrite call_eq.
  assert (∀ l, cell (set_cell σ l0 (meth (cell σ l0)).1) l = cell σ l) as Hsame.
  { intros l. destruct (decide (l0 = l)) as [<-|?].
    - rewrite cell_set_cell_eq. apply Hro. by left.
    - by apply cell_set_cell_ne. }
  destruct (IH (set_cell σ l0 (meth (cell σ l0)).1)) as [IH1 IH2].
  { intros l Hl. rewrite !Hsame. apply Hro. by right. }
  destruct (call_all meth todo _) as [σ2 rs]. cbn [fst snd] in *. split.
  - f_equal. rewrite IH1. apply list_fmap_ext. intros i l _. cbv beta.
    by rewrite Hsame.
  - intros l. by rewrite IH2.
Qed.

End StoreFacts.

(** ** The two filters *)

Section FilterConfs.
Context {Mol Float : Type}.
Variable n_confs : Mol → nat.
Variable mol_filter_confs : Float → option Float → Mol → Mol * bool.

Lemma filter_confs_loop_call_all max_energy max_force todo (σ : store Mol) keep :
  filter_confs_loop mol_filter_confs max_energy max_force todo σ keep
  = ((call_all (mol_filter_confs max_energy max_force) todo σ).1,
     keep ++ (call_all (mol_filter_confs max_energy max_force) todo σ).2).
Proof.
  revert σ keep. induction todo as [|l todo IH]; intros σ keep.
  { simpl. by rewrite app_nil_r. }
  cbn [filter_confs_loop call_all].
  destruct (call σ l (mol_filter_confs max_energy max_force)) as [σ1 b].
  rewrite IH. destruct (call_all _ todo σ1) as [σ2 rs].
  cbn [fst snd]. by rewrite <- app_assoc.
Qed.

(** Whatever the aliasing, the list keeps the positions whose call answered
    true. *)
Lemma filter_confs_positions (self : PDBDataset) max_energy max_force (σ : store Mol) :
  filter_confs mol_filter_confs self max_energy max_force σ
  = ((call_all (mol_filter_confs max_energy max_force) (mols self) σ).1,
     set_mols self
       (select_kept (call_all (mol_filter_confs max_energy max_force) (mols self) σ).2
          (mols self))).
Proof. unfold filter_confs. by rewrite filter_confs_loop_call_all. Qed.

(** C1.  After [filter_confs] the container holds, in their old order,
    exactly the entries whose own [filter_confs] call answered true.  When
    the container owns each record once, a molecule is still there exactly
    when its call answered true, which by the contract of that method means
    that at least 2 of its conformations were left; a molecule left with
    fewer than 2 is gone. *)
Theorem filter_confs_keeps_viable (self : PDBDataset) (max_energy : Float)
    (max_force : option Float) (σ : store Mol) :
  let answers := (call_all (mol_filter_confs max_energy max_force) (mols self) σ).2 in
  let viable l := (mol_filter_confs max_energy max_force (cell σ l)).2 in
  let σ' := (filter_confs mol_filter_confs self max_energy max_force σ).1 in
  let self' := (filter_confs mol_filter_confs self max_energy max_force σ).2 in
  (length answers = len self ∧
   mols self' = select_kept answers (mols self) ∧
   mols self' `sublist_of` mols self) ∧
  (NoDup (mols self) →
   (∀ l, l ∈ mols self →
      (mol_filter_confs max_energy max_force (cell σ l)).2 = true
      ↔ 2 ≤ n_confs (mol_filter_confs max_energy max_force (cell σ l)).1) →
   (∀ l, l ∈ mols self' ↔ l ∈ mols self ∧ viable l = true) ∧
   (∀ l, l ∈ mols self →
      cell σ' l = (mol_filter_confs max_energy max_force (cell σ l)).1) ∧
   (∀ l, l ∈ mols self → (l ∈ mols self' ↔ 2 ≤ n_confs (cell σ' l))) ∧
   (∀ l, l ∈ mols self → n_confs (cell σ' l) < 2 → l ∉ mols self') ∧
   mols self' = filter (λ l, viable l = true) (mols self)).
Proof.
  intros answers viable σ' self'.
  subst answers σ' self'. rewrite filter_confs_positions. cbn [fst snd set_mols mols].
  split.
  { split_and!; [apply call_all_length|done|apply select_kept_sublist]. }
  intros Hnd Hcontract.
  destruct (call_all_NoDup (mol_filter_confs max_energy max_force) (mols self) σ Hnd)
    as [Hflags Hcells].
  rewrite Hflags, (select_kept_fmap viable).
  assert (∀ l, l ∈ filter (λ l, viable l = true) (mols self)
               ↔ l ∈ mols self ∧ viable l = true) as Hmem.
  { intros l. rewrite list_elem_of_filter. tauto. }
  assert (∀ l, l ∈ mols self →
            (l ∈ filter (λ l, viable l = true) (mols self)
             ↔ 2 ≤ n_confs (cell (call_all (mol_filter_confs max_energy max_force)
                                     (mols self) σ).1 l))) as Hcnt.
  { intros l Hl. rewrite Hmem, (Hcells l Hl), <- (Hcontract l Hl).
    unfold viable. tauto. }
  split_and!; [done|done|done| |done].
  intros l Hl Hlt Hin. apply (Hcnt l Hl) in Hin. lia.
Qed.

End FilterConfs.

Section FilterValidity.
Context {Mol Float ForceField : Type}.
Variable mol_conf_check : ForceField → Float * Float → Mol → Mol * bool.
Variable energy_criterion force_criterion : ForceField → Float → Mol → bool.

Lemma filter_validity_loop_call_all forcefield sigmas todo (σ : store Mol) keep removed :
  (filter_validity_loop mol_conf_check forcefield sigmas todo σ keep removed).1
  = ((call_all (mol_conf_check forcefield sigmas) todo σ).1,
     keep ++ (call_all (mol_conf_check forcefield sigmas) todo σ).2).
Proof.
  revert σ keep removed. induction todo as [|l todo IH]; intros σ keep removed.
  { simpl. by rewrite app_nil_r. }
  cbn [filter_validity_loop call_all].
  destruct (call σ l (mol_conf_check forcefield sigmas)) as [σ1 b].
  rewrite IH. destruct (call_all _ todo σ1) as [σ2 rs].
  cbn [fst snd]. by rewrite <- app_assoc.
Qed.

Lemma filter_validity_positions (self : PDBDataset) forcefield sigmas (σ : store Mol) :
  filter_validity mol_conf_check self forcefield sigmas σ
  = ((call_all (mol_conf_check forcefield sigmas) (mols self) σ).1,
     set_mols self
       (select_kept (call_all (mol_conf_check forcefield sigmas) (mols self) σ).2
          (mols self))).
Proof.
  unfold filter_validity.
  pose proof (filter_validity_loop_call_all forcefield sigmas (mols self) σ [] 0) as H.
  destruct (filter_validity_loop _ _ _ _ _ _ _) as [[σ' keep] removed].
  cbn [fst] in H. by injection H as -> ->.
Qed.

(** C2.  [filter_validity] keeps, in their old order, exactly the entries
    whose [conf_check] against the force field answered true, and touches
    the molecules only through those calls.  With a check that reads the
    molecule only and is the conjunction of the energy and the force
    criterion, the molecules kept are those passing both, and every molecule
    is as it was. *)
Theorem filter_validity_keeps_valid (self : PDBDataset) (forcefield : ForceField)
    (sigma_energy sigma_force : Float) (σ : store Mol) :
  let check := mol_conf_check forcefield (sigma_energy, sigma_force) in
  let answers := (call_all check (mols self) σ).2 in
  let valid l := (check (cell σ l)).2 in
  let σ' :=
    (filter_validity mol_conf_check self forcefield (sigma_energy, sigma_force) σ).1 in
  let self' :=
    (filter_validity mol_conf_check self forcefield (sigma_energy, sigma_force) σ).2 in
  (length answers = len self ∧
   mols self' = select_kept answers (mols self) ∧
   mols self' `sublist_of` mols self ∧
   σ' = (call_all check (mols self) σ).1) ∧
  ((∀ l, l ∈ mols self → (check (cell σ l)).1 = cell σ l) →
   (∀ l, l ∈ mols self →
      (check (cell σ l)).2
      = energy_criterion forcefield sigma_energy (cell σ l)
        && force_criterion forcefield sigma_force (cell σ l)) →
   mols self' = filter (λ l, valid l = true) (mols self) ∧
   (∀ l, l ∈ mols self' ↔
      l ∈ mols self ∧
      energy_criterion forcefield sigma_energy (cell σ l) = true ∧
      force_criterion forcefield sigma_force (cell σ l) = true) ∧
   (∀ l, l ∈ mols self → valid l = false → l ∉ mols self') ∧
   (∀ l, cell σ' l = cell σ l)).
Proof.
  intros check answers valid σ' self'.
  subst answers σ' self'. rewrite filter_validity_positions. cbn [fst snd set_mols mols].
  split.
  { split_and!; [apply call_all_length|done|apply select_kept_sublist|done]. }
  intros Hro Hboth.
  destruct (call_all_readonly check (mols self) σ Hro) as [Hflags Hcells].
  subst check. rewrite Hflags, (select_kept_fmap valid).
  split_and!; [done| | |done].
  - intros l. rewrite list_elem_of_filter. unfold valid. split.
    + intros [Hv Hl]. rewrite (Hboth l Hl) in Hv.
      apply andb_true_iff in Hv. tauto.
    + intros (Hl & He & Hf). split; [|done]. by rewrite (Hboth l Hl), He, Hf.
  - intros l _ Hv [Hv' _]%list_elem_of_filter. congruence.
Qed.

End FilterValidity.

(** ** Parametrization *)

Section Parametrize.
Context {Mol ForceField Charges : Type}.
Variable mol_parametrize :
  ForceField → string → option Charges → Mol → Mol * result unit.

Lemma parametrize_loop_frame forcefield suffix get_charges todo (σ : store Mol) l :
  l ∉ todo →
  cell (parametrize_loop mol_parametrize forcefield suffix get_charges todo σ).1 l
  = cell σ l.
Proof.
  set (mp := mol_parametrize forcefield suffix get_charges).
  revert σ. induction todo as [|l0 todo IH]; intros σ Hl; [done|].
  apply not_elem_of_cons in Hl as [Hne Hl].
  cbn [parametrize_loop]. fold mp. rewrite call_eq.
  destruct (mp (cell σ l0)).2.
  - rewrite IH by done. by apply cell_set_cell_ne.
  - cbn [fst]. by apply cell_set_cell_ne.
Qed.

(** When every call succeeds the loop runs to its end. *)
Lemma parametrize_loop_ok forcefield suffix get_charges todo (σ : store Mol) :
  NoDup todo →
  (∀ l, l ∈ todo →
     (mol_parametrize forcefield suffix get_charges (cell σ l)).2 = Ok ()) →
  (parametrize_loop mol_parametrize forcefield suffix get_charges todo σ).2 = Ok () ∧
  ∀ l, l ∈ todo →
    cell (parametrize_loop mol_parametrize forcefield suffix get_charges todo σ).1 l
    = (mol_parametrize forcefield suffix get_charges (cell σ l)).1.
Proof.
  set (mp := mol_parametrize forcefield suffix get_charges).
  revert σ. induction todo as [|l0 todo IH]; intros σ Hnd Hok.
  { split; [done|]. by intros l ?%elem_of_nil. }
  apply NoDup_cons in Hnd as [Hl0 Hnd].
  cbn [parametrize_loop]. fold mp. rewrite call_eq, (Hok l0) by by left.
  assert (∀ l, l ∈ todo → cell (set_cell σ l0 (mp (cell σ l0)).1) l = cell σ l) as Hsame.
  { intros l Hl. apply cell_set_cell_ne. by intros ->. }
  destruct (IH (set_cell σ l0 (mp (cell σ l0)).1) Hnd) as [IH1 IH2].
  { intros l Hl. rewrite (Hsame l Hl). apply Hok. by right. }
  split; [done|]. intros l [->|Hl]%elem_of_cons.
  - rewrite parametrize_loop_frame by done. apply cell_set_cell_eq.
  - by rewrite (IH2 l Hl), (Hsame l Hl).
Qed.

(** Calls that succeed are gone through like any other list of calls. *)
Lemma parametrize_loop_app forcefield suffix get_charges done todo (σ : store Mol) :
  Forall (λ r, r = Ok ())
    (call_all (mol_parametrize forcefield suffix get_charges) done σ).2 →
  parametrize_loop mol_parametrize forcefield suffix get_charges (done ++ todo) σ
  = parametrize_loop mol_parametrize forcefield suffix get_charges todo
      (call_all (mol_parametrize forcefield suffix get_charges) done σ).1.
Proof.
  revert σ. induction done as [|l0 done IH]; intros σ Hok; [done|].
  cbn [app parametrize_loop call_all] in Hok |- *.
  destruct (call σ l0 (mol_parametrize forcefield suffix get_charges)) as [σ1 r].
  specialize (IH σ1).
  destruct (call_all (mol_parametrize forcefield suffix get_charges) done σ1)
    as [σ2 rs].
  cbn [fst snd] in *. apply Forall_cons in Hok as [-> Hok]. by apply IH.
Qed.

(** C6.  When the scorer fails on the molecule at position [i], after the
    calls for the positions before it went through, [parametrize] ends with
    that very exception, and the store is the one those calls and the failed
    call left: nothing after position [i] is processed.  When the container
    owns each record once and the failed call wrote nothing, the molecules
    before [i] carry their new labels and the one at [i] and all after it
    are as they were. *)
Theorem parametrize_stops_at_first_failure (self : PDBDataset)
    (forcefield : ForceField) (suffix : string) (get_charges : option Charges)
    (σ : store Mol) (i : nat) (l : loc) (e : exn) :
  let mp := mol_parametrize forcefield suffix get_charges in
  let before := call_all mp (take i (mols self)) σ in
  let σ' := (parametrize mol_parametrize self forcefield suffix get_charges σ).1 in
  mols self !! i = Some l →
  Forall (λ r, r = Ok ()) before.2 →
  (mp (cell before.1 l)).2 = Raise e →
  (parametrize mol_parametrize self forcefield suffix get_charges σ).2 = Raise e ∧
  σ' = set_cell before.1 l (mp (cell before.1 l)).1 ∧
  (NoDup (mols self) →
   (mp (cell before.1 l)).1 = cell before.1 l →
   (∀ j l', j < i → mols self !! j = Some l' → cell σ' l' = (mp (cell σ l')).1) ∧
   (∀ j l', i ≤ j → mols self !! j = Some l' → cell σ' l' = cell σ l') ∧
   (∀ l', l' ∉ mols self → cell σ' l' = cell σ l')).
Proof.
  intros mp before σ' Hi Hok Hfail.
  assert (parametrize mol_parametrize self forcefield suffix get_charges σ
          = (set_cell before.1 l (mp (cell before.1 l)).1, Raise e)) as Hrun.
  { unfold parametrize.
    rewrite <- (take_drop_middle (mols self) i l Hi).
    rewrite parametrize_loop_app by exact Hok.
    cbn [parametrize_loop]. fold mp. fold before. rewrite call_eq.
    by rewrite Hfail. }
  subst σ'. rewrite Hrun. cbn [fst snd]. split_and!; [done|done|].
  intros Hnd Hatomic.
  assert (NoDup (take i (mols self))) as Hnd'.
  { eapply sublist_NoDup; [exact Hnd|apply sublist_take]. }
  destruct (call_all_NoDup mp (take i (mols self)) σ Hnd') as [_ Hcells].
  fold before in Hcells.
  assert (∀ j l', i ≤ j → mols self !! j = Some l' → l' ∉ take i (mols self)) as Hnot.
  { intros j l' Hj Hl' [k Hk]%list_elem_of_lookup_1.
    assert (k < i) as Hki.
    { apply lookup_lt_Some in Hk. rewrite length_take in Hk. lia. }
    rewrite lookup_take_lt in Hk by done.
    pose proof (NoDup_lookup _ _ _ _ Hnd Hk Hl'). lia. }
  assert (∀ l', cell (set_cell before.1 l (mp (cell before.1 l)).1) l'
                = cell before.1 l') as Hsame.
  { intros l'. destruct (decide (l = l')) as [<-|Hne].
    - by rewrite cell_set_cell_eq.
    - by apply cell_set_cell_ne. }
  split_and!.
  - intros j l' Hj Hl'. rewrite Hsame. apply Hcells.
    apply list_elem_of_lookup_2 with j. by rewrite lookup_take_lt.
  - intros j l' Hj Hl'. rewrite Hsame. apply call_all_frame. by eapply Hnot.
  - intros l' Hl'. rewrite Hsame. apply call_all_frame.
    intros (k & Hk & _)%elem_of_take. apply Hl'. by eapply list_elem_of_lookup_2.
Qed.

End Parametrize.

(** ** [append] *)

(** C7, as the code has it.  [append] checks nothing: whatever the record,
    it becomes the last entry, the length grows by one, and the entries that
    were there stay where they were. *)
Theorem append_stores_any_record (self : PDBDataset) (mol : loc) :
  mols (append self mol) = mols self ++ [mol] ∧
  len (append self mol) = S (len self) ∧
  mols (append self mol) !! len self = Some mol ∧
  (∀ i, i < len self → mols (append self mol) !! i = mols self !! i) ∧
  info (append self mol) = info self.
Proof.
  unfold append, len. cbn [mols info]. split_and!; [done| | | |done].
  - rewrite length_app. simpl. lia.
  - by rewrite lookup_app_r, Nat.sub_diag.
  - intros i Hi. by rewrite lookup_app_l.
Qed.

(** C7, as the claim has it, fails: a record without conformations is
    stored like any other. *)
Lemma append_accepts_empty_record :
  ¬ append_requires_conformation Simple.n_confs.
Proof.
  intros H.
  specialize (H (Simple.store_of [Simple.mol_of_energies []]) new_dataset 0 eq_refl).
  discriminate H.
Qed.

(** ** Graph export *)

Lemma rmapM_ok {A B} (f : A → result B) (g : A → B) (l : list A) :
  Forall (λ x, f x = Ok (g x)) l → rmapM f l = Ok (g <$> l).
Proof.
  induction 1 as [|x l Hx _ IH]; [done|].
  cbn [rmapM]. by rewrite Hx, IH.
Qed.

Lemma py_getitem_in_range {A} `{!Inhabited A} (l : list A) (idx : Z) :
  (- Z.of_nat (length l) ≤ idx < Z.of_nat (length l))%Z →
  py_getitem l idx = Ok (l !!! Z.to_nat (py_offset (length l) idx)).
Proof.
  intros Hr. unfold py_getitem.
  assert (0 ≤ py_offset (length l) idx < Z.of_nat (length l))%Z as Hoff.
  { unfold py_offset. case_bool_decide; lia. }
  rewrite bool_decide_true by lia.
  rewrite (list_lookup_lookup_total_lt l (Z.to_nat (py_offset (length l) idx))) by lia.
  done.
Qed.

Lemma fmap_lookup_total_seq {A} `{!Inhabited A} (l : list A) :
  (λ k, l !!! k) <$> seq 0 (length l) = l.
Proof.
  apply list_eq. intros i. rewrite list_lookup_fmap.
  destruct (decide (i < length l)) as [Hi|Hi].
  - rewrite lookup_seq_lt by done. simpl.
    by rewrite (list_lookup_lookup_total_lt l i).
  - rewrite lookup_seq_ge by lia. simpl. symmetry. apply lookup_ge_None. lia.
Qed.

Lemma fmap_seq_lookup_total {A B} `{!Inhabited A} (g : A → B) (l : list A) :
  (λ i, g (l !!! i)) <$> seq 0 (length l) = g <$> l.
Proof.
  transitivity (g <$> ((λ k, l !!! k) <$> seq 0 (length l))).
  - by rewrite <- list_fmap_compose.
  - by rewrite fmap_lookup_total_seq.
Qed.

Section GraphExport.
Context {Mol Float Graph Split : Type}.
Variable mol_to_dgl : Mol → Graph.
Variable split_dataset : list Graph → list Float → Z → result Split.

Lemma get_graph_in_range (self : PDBDataset) (σ : store Mol) (idx : Z) :
  (- Z.of_nat (len self) ≤ idx < Z.of_nat (len self))%Z →
  get_graph mol_to_dgl self σ idx
  = Ok (mol_to_dgl (cell σ (mols self !!! Z.to_nat (py_offset (len self) idx)))).
Proof.
  intros Hr. unfold get_graph. by rewrite py_getitem_in_range.
Qed.

(** C9.  Without index list and split, [to_dgl] gives the graphs of all
    molecules in container order; with an index list, the graphs of the
    molecules at those indices in the order given; a split is applied to the
    graph list that the index list has already restricted, and without a
    split nothing is partitioned. *)
Theorem to_dgl_modes (self : PDBDataset) (σ : store Mol) :
  (∀ seed,
     to_dgl mol_to_dgl split_dataset self None None seed σ
     = Ok (inl ((λ l, mol_to_dgl (cell σ l)) <$> mols self))) ∧
  (∀ idxs seed,
     Forall (λ idx, - Z.of_nat (len self) ≤ idx < Z.of_nat (len self))%Z idxs →
     to_dgl mol_to_dgl split_dataset self (Some idxs) None seed σ
     = Ok (inl ((λ idx, mol_to_dgl
                   (cell σ (mols self !!! Z.to_nat (py_offset (len self) idx))))
                <$> idxs))) ∧
  (∀ idxs split seed,
     to_dgl mol_to_dgl split_dataset self idxs (Some split) seed σ
     = let? r := to_dgl mol_to_dgl split_dataset self idxs None seed σ in
       match r with
       | inl glist => rmap inr (split_dataset glist split seed)
       | inr parts => Ok (inr parts)
       end) ∧
  (∀ idxs seed r,
     to_dgl mol_to_dgl split_dataset self idxs None seed σ = Ok r →
     ∃ glist, r = inl glist).
Proof.
  assert (∀ idxs seed,
     Forall (λ idx, - Z.of_nat (len self) ≤ idx < Z.of_nat (len self))%Z idxs →
     to_dgl mol_to_dgl split_dataset self (Some idxs) None seed σ
     = Ok (inl ((λ idx, mol_to_dgl
                   (cell σ (mols self !!! Z.to_nat (py_offset (len self) idx))))
                <$> idxs))) as Hsub.
  { intros idxs seed Hr. unfold to_dgl.
    rewrite (rmapM_ok _ (λ idx, mol_to_dgl
               (cell σ (mols self !!! Z.to_nat (py_offset (len self) idx))))); [done|].
    eapply Forall_impl; [exact Hr|]. intros idx Hidx.
    by apply get_graph_in_range. }
  split_and!; [|exact Hsub| |].
  - intros seed.
    assert (to_dgl mol_to_dgl split_dataset self None None seed σ
            = to_dgl mol_to_dgl split_dataset self (Some (all_indices self)) None seed σ)
      as -> by done.
    rewrite Hsub.
    + do 2 f_equal. unfold all_indices, len.
      transitivity ((λ l, mol_to_dgl (cell σ l)) <$>
                    ((λ k, mols self !!! k) <$> seq 0 (length (mols self))));
        [|by rewrite fmap_lookup_total_seq].
      rewrite <- !list_fmap_compose. apply list_fmap_ext.
      intros i k Hk. apply lookup_seq in Hk as [-> Hk]. cbn [compose].
      unfold py_offset. rewrite bool_decide_false by lia.
      by rewrite Nat2Z.id.
    + unfold all_indices. apply Forall_fmap, Forall_forall.
      intros k Hk%elem_of_seq. cbn [compose]. lia.
  - intros idxs split seed. unfold to_dgl.
    by destruct (rmapM _ _).
  - intros idxs seed r. unfold to_dgl.
    destruct (rmapM _ _) as [glist|]; [|done].
    cbn [rbind]. intros [= <-]. by exists glist.
Qed.

End GraphExport.

(** ** Ingestion *)

Section IngestionFacts.
Context {Mol Arr PhysUnit : Type}.
Variable build_molecule :
  PhysUnit → PhysUnit → PhysUnit → Arr → Arr → Arr → Arr → result Mol.
Implicit Types (fmt : h5_format PhysUnit) (f : list (string * gmap string Arr))
  (σ : store Mol) (st : ingest_state).

Lemma readable_cons_ok fmt name g f m :
  read_group build_molecule fmt g = Ok m →
  readable build_molecule fmt ((name, g) :: f) = m :: readable build_molecule fmt f.
Proof. intros H. unfold readable. cbn [omap list_omap snd]. by rewrite H. Qed.

Lemma readable_cons_raise fmt name g f e :
  read_group build_molecule fmt g = Raise e →
  readable build_molecule fmt ((name, g) :: f) = readable build_molecule fmt f.
Proof. intros H. unfold readable. cbn [omap list_omap snd]. by rewrite H. Qed.

Lemma unreadable_cons_ok fmt name g f m :
  read_group build_molecule fmt g = Ok m →
  unreadable build_molecule fmt ((name, g) :: f) = unreadable build_molecule fmt f.
Proof. intros H. unfold unreadable. rewrite filter_cons. cbn [snd]. by rewrite H. Qed.

Lemma unreadable_cons_raise fmt name g f e :
  read_group build_molecule fmt g = Raise e →
  unreadable build_molecule fmt ((name, g) :: f)
  = S (unreadable build_molecule fmt f).
Proof. intros H. unfold unreadable. rewrite filter_cons. cbn [snd]. by rewrite H. Qed.

(** With [skip_errs] the loop always comes to an end without an exception. *)
Lemma from_hdf5_loop_skip fmt n_max f σ st :
  Forall (λ l, l < next σ) (mols (obj st)) →
  ∃ σ' st',
    from_hdf5_loop build_molecule fmt n_max true f σ st = (σ', Ok st') ∧
    cell σ' <$> mols (obj st')
    = (cell σ <$> mols (obj st))
      ++ within_cap n_max (len (obj st)) (readable build_molecule fmt f) ∧
    counter st' + len (obj st) = counter st + len (obj st') ∧
    (n_max = None →
     failed_counter st' = failed_counter st + unreadable build_molecule fmt f) ∧
    info (obj st') = info (obj st).
Proof.
  revert σ st. induction f as [|[name g] f IH]; intros σ st Hwf.
  { exists σ, st. split_and!; [done| |done|intros _; cbn; lia|done].
    unfold readable, within_cap. cbn [omap list_omap].
    destruct n_max; by rewrite ?take_nil, app_nil_r. }
  cbn [from_hdf5_loop].
  destruct (cap_exceeded n_max (obj st)) eqn:Hcap.
  { exists σ, st. split_and!; [done| |done| |done].
    - unfold cap_exceeded in Hcap. destruct n_max as [n|]; [|done].
      apply bool_decide_eq_true in Hcap. unfold within_cap.
      replace (Z.to_nat (n + 1) - len (obj st)) with 0 by lia.
      by rewrite take_0, app_nil_r.
    - intros ->. done. }
  destruct (read_group build_molecule fmt g) as [m|e] eqn:Hread.
  - cbn [alloc].
    set (σ1 := Store (<[next σ := m]> (cell σ)) (S (next σ))).
    destruct (IH σ1 (stored st (next σ))) as (σ' & st' & Hrun & Hvals & Hcnt & Hfail & Hinfo).
    { cbn [stored obj append mols next σ1]. apply Forall_app. split.
      - eapply Forall_impl; [exact Hwf|]. cbn. lia.
      - apply Forall_singleton. lia. }
    exists σ', st'. split_and!; [done| | | |done].
    + rewrite Hvals. cbn [stored obj append mols len].
      rewrite fmap_app, <- app_assoc. f_equal.
      { apply list_fmap_ext. intros i l Hl. cbn [σ1 cell].
        apply fn_lookup_insert_ne.
        apply list_elem_of_lookup_2 in Hl.
        rewrite Forall_forall in Hwf. specialize (Hwf l Hl). lia. }
      rewrite (readable_cons_ok _ _ _ _ _ Hread).
      cbn [fmap list_fmap σ1 cell]. rewrite fn_lookup_insert.
      unfold within_cap, len. destruct n_max as [n|]; [|done].
      unfold cap_exceeded in Hcap. apply bool_decide_eq_false in Hcap.
      cbn [append mols]. rewrite length_app. cbn [length]. unfold len in Hcap.
      replace (Z.to_nat (n + 1) - length (mols (obj st)))
        with (S (Z.to_nat (n + 1) - (length (mols (obj st)) + 1))) by lia.
      done.
    + revert Hcnt. unfold len. cbn [stored obj append mols counter].
      rewrite length_app. cbn [length]. lia.
    + intros Hn. rewrite (Hfail Hn), (unreadable_cons_ok _ _ _ _ _ Hread). done.
  - destruct (IH σ (failed st) Hwf) as (σ' & st' & Hrun & Hvals & Hcnt & Hfail & Hinfo).
    exists σ', st'. split_and!; [done| |done| |done].
    + rewrite Hvals. cbn [failed obj]. by rewrite (readable_cons_raise _ _ _ _ _ Hread).
    + intros Hn. rewrite (Hfail Hn), (unreadable_cons_raise _ _ _ _ _ Hread).
      cbn [failed failed_counter]. lia.
Qed.

Lemma readable_unreadable_length fmt f :
  length (readable build_molecule fmt f) + unreadable build_molecule fmt f = length f.
Proof.
  induction f as [|[name g] f IH]; [done|].
  destruct (read_group build_molecule fmt g) as [m|e] eqn:Hread.
  - rewrite (readable_cons_ok _ _ _ _ _ Hread), (unreadable_cons_ok _ _ _ _ _ Hread).
    cbn [length]. lia.
  - rewrite (readable_cons_raise _ _ _ _ _ Hread), (unreadable_cons_raise _ _ _ _ _ Hread).
    cbn [length]. lia.
Qed.

Lemma readable_app fmt f1 f2 :
  readable build_molecule fmt (f1 ++ f2)
  = readable build_molecule fmt f1 ++ readable build_molecule fmt f2.
Proof. unfold readable. apply omap_app. Qed.

Lemma unreadable_app fmt f1 f2 :
  unreadable build_molecule fmt (f1 ++ f2)
  = unreadable build_molecule fmt f1 + unreadable build_molecule fmt f2.
Proof. unfold unreadable. by rewrite filter_app, length_app. Qed.

Lemma unreadable_all_ok fmt f :
  Forall (λ ng, is_ok (read_group build_molecule fmt ng.2) = true) f →
  unreadable build_molecule fmt f = 0.
Proof.
  induction 1 as [|[name g] f Hg _ IH]; [done|].
  cbn [snd] in Hg. destruct (read_group build_molecule fmt g) as [m|e] eqn:Hread; [|done].
  by rewrite (unreadable_cons_ok _ _ _ _ _ Hread).
Qed.

(** Without [skip_errs] and without cap, the first group that cannot be read
    ends the loop with its exception. *)
Lemma from_hdf5_loop_abort fmt f1 name g f2 σ st e :
  Forall (λ ng, is_ok (read_group build_molecule fmt ng.2) = true) f1 →
  read_group build_molecule fmt g = Raise e →
  (from_hdf5_loop build_molecule fmt None false (f1 ++ (name, g) :: f2) σ st).2
  = Raise e.
Proof.
  intros Hok Hread. revert σ st.
  induction Hok as [|[name1 g1] f1 Hg1 _ IH]; intros σ st.
  { cbn [app from_hdf5_loop cap_exceeded]. by rewrite Hread. }
  cbn [app from_hdf5_loop cap_exceeded]. cbn [snd] in Hg1.
  destruct (read_group build_molecule fmt g1) as [m|?]; [|done].
  cbn [alloc]. apply IH.
Qed.

(** Whatever [skip_errs], a run that ends normally has not passed the cap by
    more than one. *)
Lemma from_hdf5_loop_bound fmt n skip f σ st σ' st' :
  from_hdf5_loop build_molecule fmt (Some n) skip f σ st = (σ', Ok st') →
  len (obj st') ≤ len (obj st) `max` Z.to_nat (n + 1).
Proof.
  revert σ st. induction f as [|[name g] f IH]; intros σ st.
  { cbn [from_hdf5_loop]. intros [= -> ->]. lia. }
  cbn [from_hdf5_loop].
  destruct (cap_exceeded (Some n) (obj st)) eqn:Hcap.
  { intros [= -> ->]. lia. }
  unfold cap_exceeded in Hcap. apply bool_decide_eq_false in Hcap.
  destruct (read_group build_molecule fmt g) as [m|e].
  - cbn [alloc]. intros Hrun. apply IH in Hrun. revert Hrun.
    unfold len in *. cbn [stored obj append mols]. rewrite length_app. cbn [length]. lia.
  - destruct skip; [|done]. intros Hrun. apply IH in Hrun. revert Hrun.
    by cbn [failed obj].
Qed.

Lemma from_hdf5_skip_run fmt n_max f info σ :
  ∃ σ' st',
    from_hdf5_loop build_molecule fmt n_max true f σ (ingest_start info) = (σ', Ok st') ∧
    from_hdf5 build_molecule f fmt n_max true info σ = (σ', Ok (obj st')) ∧
    cell σ' <$> mols (obj st') = within_cap n_max 0 (readable build_molecule fmt f) ∧
    counter st' = len (obj st') ∧
    (n_max = None → failed_counter st' = unreadable build_molecule fmt f).
Proof.
  destruct (from_hdf5_loop_skip fmt n_max f σ (ingest_start info))
    as (σ' & st' & Hrun & Hvals & Hcnt & Hfail & _).
  { by apply Forall_nil. }
  exists σ', st'. unfold from_hdf5. rewrite Hrun.
  split_and!; [done|done|done| |done].
  revert Hcnt. unfold len. cbn [ingest_start obj mols counter length]. lia.
Qed.

(** C3.  A group whose processing raises is left out when [skip_errs] is
    set: the container stays as it is, the failure counter goes up by one and
    the loop goes on with the next group, so that an uncapped run loads every
    readable group and counts every unreadable one (one unreadable group:
    counter 1, all others loaded).  Without [skip_errs] the exception ends
    the call. *)
Theorem from_hdf5_skips_failed_group fmt :
  (∀ n_max name g f σ st e,
     read_group build_molecule fmt g = Raise e →
     cap_exceeded n_max (obj st) = false →
     from_hdf5_loop build_molecule fmt n_max true ((name, g) :: f) σ st
     = from_hdf5_loop build_molecule fmt n_max true f σ (failed st) ∧
     obj (failed st) = obj st ∧
     counter (failed st) = counter st ∧
     failed_counter (failed st) = S (failed_counter st) ∧
     from_hdf5_loop build_molecule fmt n_max false ((name, g) :: f) σ st
     = (σ, Raise e)) ∧
  (∀ f info σ, ∃ σ' st',
     from_hdf5_loop build_molecule fmt None true f σ (ingest_start info) = (σ', Ok st') ∧
     from_hdf5 build_molecule f fmt None true info σ = (σ', Ok (obj st')) ∧
     cell σ' <$> mols (obj st') = readable build_molecule fmt f ∧
     counter st' = length (readable build_molecule fmt f) ∧
     failed_counter st' = unreadable build_molecule fmt f) ∧
  (∀ f1 name g f2 info σ e,
     Forall (λ ng, is_ok (read_group build_molecule fmt ng.2) = true) f1 →
     Forall (λ ng, is_ok (read_group build_molecule fmt ng.2) = true) f2 →
     read_group build_molecule fmt g = Raise e →
     ∃ σ' st',
       from_hdf5_loop build_molecule fmt None true (f1 ++ (name, g) :: f2) σ
         (ingest_start info) = (σ', Ok st') ∧
       failed_counter st' = 1 ∧
       cell σ' <$> mols (obj st') = readable build_molecule fmt (f1 ++ f2) ∧
       len (obj st') = length f1 + length f2) ∧
  (∀ f1 name g f2 info σ e,
     Forall (λ ng, is_ok (read_group build_molecule fmt ng.2) = true) f1 →
     read_group build_molecule fmt g = Raise e →
     (from_hdf5 build_molecule (f1 ++ (name, g) :: f2) fmt None false info σ).2
     = Raise e).
Proof.
  split_and!.
  - intros n_max name g f σ st e Hread Hcap.
    cbn [from_hdf5_loop]. by rewrite Hcap, Hread.
  - intros f info σ.
    destruct (from_hdf5_skip_run fmt None f info σ)
      as (σ' & st' & Hrun & Hfrom & Hvals & Hcnt & Hfail).
    exists σ', st'. split_and!; [done|done|done| |by apply Hfail].
    rewrite Hcnt. unfold len.
    by rewrite <- (length_fmap (cell σ')), Hvals.
  - intros f1 name g f2 info σ e Hok1 Hok2 Hread.
    destruct (from_hdf5_skip_run fmt None (f1 ++ (name, g) :: f2) info σ)
      as (σ' & st' & Hrun & Hfrom & Hvals & Hcnt & Hfail).
    exists σ', st'.
    assert (readable build_molecule fmt (f1 ++ (name, g) :: f2)
            = readable build_molecule fmt (f1 ++ f2)) as Hsame.
    { by rewrite !readable_app, (readable_cons_raise _ _ _ _ _ Hread). }
    split_and!; [done| | |].
    + rewrite (Hfail eq_refl), unreadable_app, (unreadable_cons_raise _ _ _ _ _ Hread).
      by rewrite !unreadable_all_ok.
    + by rewrite Hvals.
    + unfold len. rewrite <- (length_fmap (cell σ')), Hvals. cbn [within_cap].
      rewrite Hsame.
      pose proof (readable_unreadable_length fmt (f1 ++ f2)) as Hlen.
      rewrite unreadable_app, !unreadable_all_ok, length_app in Hlen by done. lia.
  - intros f1 name g f2 info σ e Hok1 Hread.
    pose proof (from_hdf5_loop_abort fmt f1 name g f2 σ (ingest_start info) e Hok1 Hread)
      as Hab.
    unfold from_hdf5. destruct (from_hdf5_loop _ _ _ _ _ _ _) as [σ' r].
    cbn [snd] in *. by rewrite Hab.
Qed.

(** C8.  With [n_max] set the loop leaves as soon as the container holds
    more than [n_max] records.  The container never ends with more than
    [n_max + 1] molecules, and it does get to [n_max + 1] when the archive
    has that many readable groups; without [n_max] every group is
    processed. *)
Theorem from_hdf5_soft_cap fmt :
  (∀ n skip f σ st,
     (n < Z.of_nat (len (obj st)))%Z →
     from_hdf5_loop build_molecule fmt (Some n) skip f σ st = (σ, Ok st)) ∧
  (∀ n skip f info σ d,
     (-1 ≤ n)%Z →
     (from_hdf5 build_molecule f fmt (Some n) skip info σ).2 = Ok d →
     (Z.of_nat (len d) ≤ n + 1)%Z) ∧
  (∀ n f info σ, ∃ σ' d,
     from_hdf5 build_molecule f fmt (Some n) true info σ = (σ', Ok d) ∧
     cell σ' <$> mols d = take (Z.to_nat (n + 1)) (readable build_molecule fmt f)) ∧
  (∀ n f info σ,
     (0 ≤ n < Z.of_nat (length (readable build_molecule fmt f)))%Z →
     ∃ σ' d,
       from_hdf5 build_molecule f fmt (Some n) true info σ = (σ', Ok d) ∧
       Z.of_nat (len d) = (n + 1)%Z) ∧
  (∀ f info σ, ∃ σ' st',
     from_hdf5_loop build_molecule fmt None true f σ (ingest_start info) = (σ', Ok st') ∧
     counter st' + failed_counter st' = length f ∧
     cell σ' <$> mols (obj st') = readable build_molecule fmt f).
Proof.
  assert (∀ n f info σ, ∃ σ' d,
     from_hdf5 build_molecule f fmt (Some n) true info σ = (σ', Ok d) ∧
     cell σ' <$> mols d = take (Z.to_nat (n + 1)) (readable build_molecule fmt f))
    as Htake.
  { intros n f info σ.
    destruct (from_hdf5_skip_run fmt (Some n) f info σ)
      as (σ' & st' & _ & Hfrom & Hvals & _).
    exists σ', (obj st'). split; [done|].
    rewrite Hvals. cbn [within_cap]. by rewrite Nat.sub_0_r. }
  split_and!; [| |exact Htake| |].
  - intros n skip f σ st Hn. destruct f as [|[name g] f]; [done|].
    cbn [from_hdf5_loop cap_exceeded]. by rewrite bool_decide_true.
  - intros n skip f info σ d Hn. unfold from_hdf5.
    destruct (from_hdf5_loop _ _ _ _ _ _ _) as [σ' [st'|e]] eqn:Hrun; [|done].
    cbn [snd rmap rbind]. intros [= <-].
    apply from_hdf5_loop_bound in Hrun. revert Hrun.
    unfold len. cbn [ingest_start obj mols length]. lia.
  - intros n f info σ Hn.
    destruct (Htake n f info σ) as (σ' & d & Hfrom & Hvals).
    exists σ', d. split; [done|].
    unfold len. rewrite <- (length_fmap (cell σ')), Hvals, length_take. lia.
  - intros f info σ.
    destruct (from_hdf5_skip_run fmt None f info σ)
      as (σ' & st' & Hrun & _ & Hvals & Hcnt & Hfail).
    exists σ', st'. split_and!; [done| |done].
    rewrite (Hfail eq_refl), Hcnt. unfold len.
    rewrite <- (length_fmap (cell σ')), Hvals. cbn [within_cap].
    apply readable_unreadable_length.
Qed.

End IngestionFacts.

(** ** Order of paths and of archive names *)

Lemma path_leb_refl (p : path) : path_leb p p = true.
Proof. induction p as [|a p IH]; [done|]. cbn [path_leb]. by rewrite decide_True. Qed.

#[global] Instance path_le_total : Total path_le.
Proof.
  intros p. unfold path_le. induction p as [|a p IH]; intros [|b q]; cbn [path_leb]; auto.
  destruct (decide (a = b)) as [->|Hne].
  - rewrite decide_True by done. apply IH.
  - rewrite (decide_False (P := b = a)) by congruence.
    destruct (total String.le a b); [left|right]; by apply bool_decide_eq_true.
Qed.

#[global] Instance path_le_antisym : AntiSymm (=) path_le.
Proof.
  intros p. unfold path_le. induction p as [|a p IH]; intros [|b q]; cbn [path_leb];
    try done.
  destruct (decide (a = b)) as [->|Hne].
  - rewrite decide_True by done. intros H1 H2. f_equal. by apply IH.
  - rewrite (decide_False (P := b = a)) by congruence.
    intros H1%bool_decide_eq_true H2%bool_decide_eq_true.
    destruct Hne. by apply (anti_symm String.le).
Qed.

#[global] Instance path_le_trans : Transitive path_le.
Proof.
  intros p. unfold path_le.
  induction p as [|a p IH]; intros [|b q] [|c r]; cbn [path_leb]; try done.
  destruct (decide (a = b)) as [->|Hab], (decide (b = c)) as [->|Hbc].
  - rewrite ?decide_True by done. apply IH.
  - rewrite ?decide_False by done. done.
  - rewrite ?decide_False by done. done.
  - intros H1%bool_decide_eq_true H2%bool_decide_eq_true.
    assert (String.le a c) as Hac by by etrans.
    destruct (decide (a = c)) as [->|Hne].
    + destruct Hab. by apply (anti_symm String.le).
    + by apply bool_decide_eq_true.
Qed.

Lemma path_le_snoc (p : path) (a b : string) :
  String.le a b → path_le (p ++ [a]) (p ++ [b]).
Proof.
  intros Hab. unfold path_le. induction p as [|c p IH].
  - cbn [app path_leb]. destruct (decide (a = b)); [done|].
    by apply bool_decide_eq_true.
  - cbn [app path_leb]. by rewrite decide_True.
Qed.

Lemma string_app_cons (c : ascii) (s t : string) :
  String c s +:+ t = String c (s +:+ t).
Proof. reflexivity. Qed.

Lemma string_app_length (s t : string) :
  String.length (s +:+ t) = String.length s + String.length t.
Proof.
  induction s as [|c s IH]; [done|].
  rewrite string_app_cons. cbn [String.length]. by rewrite IH.
Qed.

Lemma string_app_inj_r (t s1 s2 : string) : s1 +:+ t = s2 +:+ t → s1 = s2.
Proof.
  revert s2. induction s1 as [|c1 s1 IH]; intros [|c2 s2] H; [done|..].
  - apply (f_equal String.length) in H.
    rewrite !string_app_length in H. cbn [String.length] in H. lia.
  - apply (f_equal String.length) in H.
    rewrite !string_app_length in H. cbn [String.length] in H. lia.
  - rewrite !string_app_cons in H. injection H as -> H. f_equal. by apply IH.
Qed.

#[global] Instance npz_name_inj : Inj (=) (=) npz_name.
Proof.
  intros i j H. unfold npz_name in H.
  apply string_app_inj_r in H. by apply (inj pretty).
Qed.

#[global] Instance npz_path_inj p : Inj (=) (=) (npz_path p).
Proof.
  intros i j H. unfold npz_path in H.
  apply app_inv_head in H. injection H as H. by apply (inj npz_name).
Qed.

Lemma ends_with_app (suf t : string) : ends_with suf (t +:+ suf) = true.
Proof.
  induction t as [|c t IH].
  - change ("" +:+ suf) with suf.
    destruct suf; cbn [ends_with]; by rewrite decide_True.
  - rewrite string_app_cons. cbn [ends_with].
    destruct (decide _); [done|]. apply IH.
Qed.

#[global] Instance name_le_total : Total name_le.
Proof. intros i j. apply (total String.le). Qed.

#[global] Instance name_le_trans : Transitive name_le.
Proof. intros i j k. unfold name_le. apply transitivity. Qed.

#[global] Instance name_le_antisym : AntiSymm (=) name_le.
Proof.
  intros i j H1 H2. apply (inj npz_name). by apply (anti_symm String.le).
Qed.

Lemma load_order_Permutation (n : nat) : load_order n ≡ₚ seq 0 n.
Proof. apply merge_sort_Permutation. Qed.

Lemma load_order_Sorted (n : nat) : Sorted name_le (load_order n).
Proof. apply (Sorted_merge_sort name_le). Qed.

(** Sorting the archive paths of [n] molecules visits the positions in
    [load_order]. *)
Lemma sorted_npz_paths (p : path) (n : nat) (l : list path) :
  l ≡ₚ npz_paths p n → sorted l = npz_path p <$> load_order n.
Proof.
  intros Hl. apply (Sorted_unique path_le).
  - apply (Sorted_merge_sort path_le).
  - eapply Sorted_fmap; [|apply load_order_Sorted].
    intros i j Hij. by apply path_le_snoc.
  - unfold sorted. rewrite merge_sort_Permutation, Hl. unfold npz_paths.
    by rewrite load_order_Permutation.
Qed.

(** ** Decimal names *)

Lemma pretty_N_go_app (x : N) (s : string) :
  pretty_N_go x s = pretty_N_go x "" +:+ s.
Proof.
  revert s. induction (N.lt_wf_0 x) as [x _ IH]; intros s.
  destruct (decide (x = 0)%N) as [->|Hx].
  { by rewrite !pretty_N_go_0. }
  rewrite (pretty_N_go_step x s), (pretty_N_go_step x "") by lia.
  assert (x `div` 10 < x)%N as Hlt by (apply N.div_lt; lia).
  rewrite (IH (x `div` 10)%N Hlt (String _ s)).
  rewrite (IH (x `div` 10)%N Hlt (String _ "")).
  generalize (pretty_N_go (x `div` 10) ""). intros t.
  induction t as [|c t IHt]; [done|].
  rewrite !string_app_cons. by rewrite IHt.
Qed.

Lemma pretty_N_snoc (x : N) :
  (10 ≤ x)%N →
  pretty x = pretty (x `div` 10)%N +:+ String (pretty_N_char (x `mod` 10)) "".
Proof.
  intros Hx. unfold pretty, pretty_N.
  assert (0 < x `div` 10)%N as Hd by (apply N.div_str_pos; lia).
  rewrite !decide_False by lia.
  rewrite (pretty_N_go_step x) by lia. apply pretty_N_go_app.
Qed.

Lemma after_ten_app (t u : string) : after_ten t → after_ten (t +:+ u).
Proof.
  intros Ht s. specialize (Ht (u +:+ s)).
  assert ((t +:+ u) +:+ s = t +:+ (u +:+ s)) as ->; [|done].
  clear Ht. induction t as [|c t IH]; [done|].
  rewrite !string_app_cons. by rewrite IH.
Qed.

Lemma N_div10_bounds (x : N) :
  (10 * (x `div` 10) ≤ x ∧ x < 10 * (x `div` 10) + 10)%N.
Proof.
  pose proof (N.div_mod x 10 ltac:(lia)) as H1.
  pose proof (N.mod_lt x 10 ltac:(lia)) as H2.
  revert H1 H2. generalize (x `mod` 10)%N (x `div` 10)%N. lia.
Qed.

Lemma after_ten_pretty (x : N) : (2 ≤ x)%N → x ≠ 10%N → after_ten (pretty x).
Proof.
  induction (N.lt_wf_0 x) as [x _ IH]; intros Hx Hne.
  destruct (decide (x < 20)%N) as [Hsmall|Hbig].
  { assert (x = 2 ∨ x = 3 ∨ x = 4 ∨ x = 5 ∨ x = 6 ∨ x = 7 ∨ x = 8 ∨ x = 9 ∨
            x = 11 ∨ x = 12 ∨ x = 13 ∨ x = 14 ∨ x = 15 ∨ x = 16 ∨ x = 17 ∨
            x = 18 ∨ x = 19)%N as Hcases by lia.
    destruct_or!; subst x; intros s; reflexivity. }
  destruct (decide (x `div` 10 = 10)%N) as [Hten|Hnot].
  { assert (100 ≤ x < 110)%N as Hr.
    { pose proof (N_div10_bounds x). lia. }
    assert (x = 100 ∨ x = 101 ∨ x = 102 ∨ x = 103 ∨ x = 104 ∨ x = 105 ∨
            x = 106 ∨ x = 107 ∨ x = 108 ∨ x = 109)%N as Hcases by lia.
    destruct_or!; subst x; intros s; reflexivity. }
  rewrite pretty_N_snoc by lia. apply after_ten_app, IH; [|  |done].
  - apply N.div_lt; lia.
  - pose proof (N_div10_bounds x). lia.
Qed.

Lemma name_le_ten (j : nat) : 2 ≤ j → name_le 10 j.
Proof.
  intros Hj. destruct (decide (j = 10)) as [->|Hne]; [done|].
  unfold name_le, npz_name, String.le, String.leb.
  change (pretty 10 +:+ ".npz") with "10.npz".
  assert (after_ten (pretty j)) as Hafter.
  { apply after_ten_pretty; lia. }
  by rewrite (Hafter ".npz").
Qed.

(** From 11 molecules on, [10.npz] is the third archive. *)
Lemma load_order_ten (n : nat) :
  10 < n →
  load_order n = [0; 1; 10] ++ merge_sort name_le (seq 2 8 ++ seq 11 (n - 11)).
Proof.
  intros Hn. apply (Sorted_unique name_le).
  - apply load_order_Sorted.
  - assert (Sorted name_le (merge_sort name_le (seq 2 8 ++ seq 11 (n - 11)))) as Hs
      by apply (Sorted_merge_sort name_le).
    assert (∀ j, j ∈ merge_sort name_le (seq 2 8 ++ seq 11 (n - 11)) → 2 ≤ j) as Hge.
    { intros j. rewrite merge_sort_Permutation, elem_of_app, !elem_of_seq. lia. }
    cbn [app]. apply Sorted_cons; [apply Sorted_cons; [apply Sorted_cons|]|].
    + exact Hs.
    + destruct (merge_sort name_le _) as [|j rest]; constructor.
      apply name_le_ten, Hge. by left.
    + constructor. by vm_compute.
    + constructor. by vm_compute.
  - rewrite load_order_Permutation, merge_sort_Permutation.
    assert (seq 0 n = [0; 1] ++ seq 2 8 ++ [10] ++ seq 11 (n - 11)) as ->.
    { replace n with (2 + (8 + (1 + (n - 11)))) at 1 by lia.
      by rewrite !seq_app. }
    cbn [app]. do 2 f_equiv. symmetry. apply Permutation_middle.
Qed.

(** ** Saving and loading archives *)

Lemma enumerate_fst {A} (l : list A) : (enumerate l).*1 = seq 0 (length l).
Proof.
  unfold enumerate. rewrite fmap_imap.
  rewrite (imap_ext _ (λ i _, id i) l) by done.
  by rewrite imap_seq_0, list_fmap_id.
Qed.

Lemma elem_of_enumerate {A} (l : list A) (i : nat) (x : A) :
  (i, x) ∈ enumerate l ↔ l !! i = Some x.
Proof.
  unfold enumerate. rewrite elem_of_lookup_imap. split.
  - by intros (j & y & [= -> ->] & Hy).
  - intros Hx. by exists i, x.
Qed.

Lemma is_npz_below_npz_path (p : path) (id : nat) :
  is_npz_below p (npz_path p id) = true.
Proof.
  unfold is_npz_below, npz_path. rewrite last_snoc.
  rewrite bool_decide_true by by apply prefix_app_r.
  rewrite bool_decide_false.
  - cbn [negb andb]. apply ends_with_app.
  - intros H. apply (f_equal length) in H. rewrite length_app in H.
    cbn [length] in H. lia.
Qed.

Lemma elem_of_map_keys {V} (m : gmap path V) (k : path) :
  k ∈ (map_to_list m).*1 ↔ is_Some (m !! k).
Proof.
  rewrite list_elem_of_fmap. split.
  - intros ([k' v] & -> & Hkv). apply elem_of_map_to_list in Hkv. by exists v.
  - intros [v Hv]. exists (k, v). split; [done|]. by apply elem_of_map_to_list.
Qed.

(** When the entries below [p] are exactly the [n] archives, [rglob] finds
    exactly them. *)
Lemma rglob_npz_Permutation {Npz} (p : path) (n : nat) (fs : gmap path (node Npz)) :
  (∀ i, i < n → is_Some (fs !! npz_path p i)) →
  (∀ k, p `prefix_of` k → p ≠ k → is_Some (fs !! k) → k ∈ npz_paths p n) →
  rglob_npz p fs ≡ₚ npz_paths p n.
Proof.
  intros Hin Hout. apply NoDup_Permutation.
  - unfold rglob_npz. apply NoDup_filter, NoDup_fst_map_to_list.
  - unfold npz_paths. apply (NoDup_fmap_2 _), NoDup_seq.
  - intros k. unfold rglob_npz. rewrite list_elem_of_filter, elem_of_map_keys. split.
    + intros [Hbelow Hk]. unfold is_npz_below in Hbelow.
      apply andb_true_iff in Hbelow as [Hbelow _].
      apply andb_true_iff in Hbelow as [Hpre Hne].
      apply bool_decide_eq_true in Hpre. apply negb_true_iff in Hne.
      apply bool_decide_eq_false in Hne. by apply Hout.
    + unfold npz_paths. intros (i & -> & Hi%elem_of_seq)%list_elem_of_fmap.
      split; [apply is_npz_below_npz_path|]. apply Hin. lia.
Qed.

Section PersistenceFacts.
Context {Mol Npz Data : Type}.
Variable mol_compress : Mol → Npz.
Variable mol_load : Npz → result Mol.
Variable persisted : Mol → Data.
Implicit Types (fs : gmap path (node Npz)) (σ : store Mol) (p q k : path).

Lemma makedirs_from_ok (pre rest : path) fs :
  (∀ q c, q ≠ [] → q `prefix_of` rest → fs !! (pre ++ q) ≠ Some (File c)) →
  ∃ fs1,
    makedirs_from pre rest fs = (fs1, Ok ()) ∧
    ∀ k, ¬ k `prefix_of` pre ++ rest → fs1 !! k = fs !! k.
Proof.
  revert pre fs. induction rest as [|c rest IH]; intros pre fs Hno.
  { by exists fs. }
  cbn [makedirs_from].
  assert (pre ++ [c] `prefix_of` pre ++ c :: rest) as Hd.
  { exists rest. by rewrite <- app_assoc. }
  assert (∀ q c', q ≠ [] → q `prefix_of` rest →
            fs !! ((pre ++ [c]) ++ q) ≠ Some (File c')) as Hno'.
  { intros q c' Hq Hpre. rewrite <- app_assoc. apply Hno; [done|].
    cbn [app]. by apply prefix_cons. }
  destruct (fs !! (pre ++ [c])) as [[npz|]|] eqn:E.
  - destruct (Hno [c] npz); [done| |exact E]. by exists rest.
  - destruct (IH (pre ++ [c]) fs Hno') as (fs1 & Hrun & Hfr).
    exists fs1. split; [done|]. intros k Hk. apply Hfr. by rewrite <- app_assoc.
  - destruct (IH (pre ++ [c]) (<[pre ++ [c] := Dir]> fs)) as (fs1 & Hrun & Hfr).
    { intros q c' Hq Hpre. rewrite lookup_insert_ne; [by apply Hno'|].
      intros H. apply (f_equal length) in H. rewrite !length_app in H.
      destruct q; [done|]. cbn [length] in H. lia. }
    exists fs1. split; [done|]. intros k Hk.
    rewrite Hfr by by rewrite <- app_assoc.
    apply lookup_insert_ne. intros <-. by apply Hk.
Qed.

Lemma makedirs_from_changes (pre rest : path) fs k :
  (makedirs_from pre rest fs).1 !! k = fs !! k ∨
  (fs !! k = None ∧ (makedirs_from pre rest fs).1 !! k = Some Dir ∧
   k `prefix_of` pre ++ rest).
Proof.
  revert pre fs. induction rest as [|c rest IH]; intros pre fs; [by left|].
  cbn [makedirs_from].
  assert (pre ++ c :: rest = (pre ++ [c]) ++ rest) as Happ by by rewrite <- app_assoc.
  destruct (fs !! (pre ++ [c])) as [[npz|]|] eqn:E.
  - by left.
  - rewrite Happ. apply IH.
  - rewrite Happ.
    destruct (IH (pre ++ [c]) (<[pre ++ [c] := Dir]> fs)) as [Hsame|(Hnone & Hdir & Hpre)].
    + destruct (decide (k = pre ++ [c])) as [->|Hne].
      * right. rewrite Hsame, lookup_insert_eq. split_and!; [done|done|].
        by apply prefix_app_r.
      * left. by rewrite Hsame, lookup_insert_ne.
    + destruct (decide (k = pre ++ [c])) as [->|Hne].
      * by rewrite lookup_insert_eq in Hnone.
      * right. by rewrite lookup_insert_ne in Hnone.
Qed.

Lemma makedirs_from_dirs (pre rest : path) fs fs1 :
  makedirs_from pre rest fs = (fs1, Ok ()) →
  ∀ q, q ≠ [] → q `prefix_of` rest → fs1 !! (pre ++ q) = Some Dir.
Proof.
  revert pre fs. induction rest as [|c rest IH]; intros pre fs Hrun q Hq Hpre.
  { apply prefix_nil_inv in Hpre. done. }
  destruct q as [|c' q]; [done|].
  apply prefix_cons_inv_1 in Hpre as Hc. subst c'.
  apply prefix_cons_inv_2 in Hpre.
  cbn [makedirs_from] in Hrun.
  assert (pre ++ c :: q = (pre ++ [c]) ++ q) as -> by by rewrite <- app_assoc.
  assert (∀ fs0, makedirs_from (pre ++ [c]) rest fs0 = (fs1, Ok ()) →
            fs0 !! (pre ++ [c]) = Some Dir →
            fs1 !! ((pre ++ [c]) ++ q) = Some Dir) as Hstep.
  { intros fs0 Hrun0 Hdir. destruct q as [|c1 q].
    - rewrite app_nil_r.
      destruct (makedirs_from_changes (pre ++ [c]) rest fs0 (pre ++ [c]))
        as [Hsame|(Hnone & _)].
      + rewrite Hrun0 in Hsame. cbn [fst] in Hsame. by etrans; [exact Hsame|].
      + pose proof (eq_trans (eq_sym Hdir) Hnone) as Hbad. discriminate Hbad.
    - by apply (IH (pre ++ [c]) fs0). }
  destruct (fs !! (pre ++ [c])) as [[npz|]|] eqn:E.
  - by destruct rest.
  - by apply (Hstep fs).
  - apply (Hstep (<[pre ++ [c] := Dir]> fs)); [done|]. apply lookup_insert_eq.
Qed.

Lemma open_dir_ok (file pre rest : path) fs :
  (∀ q, q ≠ [] → q `prefix_of` rest → fs !! (pre ++ q) = Some Dir) →
  open_dir file pre rest fs = Ok ().
Proof.
  revert pre. induction rest as [|c rest IH]; intros pre Hdirs; [done|].
  cbn [open_dir]. rewrite (Hdirs [c]); [|done|by exists rest].
  apply IH. intros q Hq Hpre. rewrite <- app_assoc. apply Hdirs; [done|].
  cbn [app]. by apply prefix_cons.
Qed.

(** In a directory that is there [compress] writes its file, unless a
    directory has the name of the file. *)
Lemma compress_to_ok p (id : nat) (m : Mol) fs :
  dirs_to p fs →
  fs !! npz_path p id ≠ Some Dir →
  compress_to mol_compress (npz_path p id) m fs
  = (<[npz_path p id := File (mol_compress m)]> fs, Ok ()).
Proof.
  intros Hdirs Hfree. unfold compress_to, npz_path. rewrite removelast_last.
  rewrite open_dir_ok by (intros q Hq Hpre; by apply Hdirs).
  fold (npz_path p id). by destruct (fs !! npz_path p id) as [[c|]|].
Qed.

(** [compress] writes its file or changes nothing. *)
Lemma compress_to_cases (file : path) (m : Mol) fs :
  (∃ e, compress_to mol_compress file m fs = (fs, Raise e)) ∨
  (fs !! file ≠ Some Dir ∧
   compress_to mol_compress file m fs = (<[file := File (mol_compress m)]> fs, Ok ())).
Proof.
  unfold compress_to. destruct (open_dir file [] (removelast file) fs) as [[]|e].
  - destruct (fs !! file) as [[c|]|]; [by right|left; by eexists|by right].
  - left. by eexists.
Qed.

Lemma dirs_to_insert_npz p (id : nat) (x : node Npz) fs :
  dirs_to p fs → dirs_to p (<[npz_path p id := x]> fs).
Proof.
  intros Hdirs q Hq Hpre. rewrite lookup_insert_ne; [by apply Hdirs|].
  intros <-. destruct Hpre as [k Hk]. apply (f_equal length) in Hk.
  unfold npz_path in Hk. rewrite !length_app in Hk. cbn [length] in Hk. lia.
Qed.

Lemma save_npz_loop_ok p (todo : list (nat * loc)) σ fs :
  NoDup (todo.*1) →
  dirs_to p fs →
  (∀ id, id ∈ todo.*1 → fs !! npz_path p id ≠ Some Dir) →
  ∃ fs2,
    save_npz_loop mol_compress p todo σ fs = (fs2, Ok ()) ∧
    (∀ id l, (id, l) ∈ todo →
       fs2 !! npz_path p id = Some (File (mol_compress (cell σ l)))) ∧
    (∀ k, (∀ id, id ∈ todo.*1 → k ≠ npz_path p id) → fs2 !! k = fs !! k).
Proof.
  revert fs. induction todo as [|[id l] todo IH]; intros fs Hnd Hdirs Hfree.
  { exists fs. split_and!; [done| |done]. by intros ?? ?%elem_of_nil. }
  cbn [fmap list_fmap fst] in Hnd, Hfree. apply NoDup_cons in Hnd as [Hid Hnd].
  cbn [save_npz_loop].
  rewrite (compress_to_ok p id (cell σ l) fs Hdirs) by (apply Hfree; by left).
  destruct (IH (<[npz_path p id := File (mol_compress (cell σ l))]> fs) Hnd)
    as (fs2 & Hrun & Hfiles & Hfr).
  { by apply dirs_to_insert_npz. }
  { intros id' Hid'. rewrite lookup_insert_ne.
    - apply Hfree. by right.
    - intros H%(inj (npz_path p)). by subst. }
  exists fs2. split_and!; [done| |].
  - intros id' l' [[= -> ->]|Hin]%elem_of_cons.
    + rewrite Hfr; [by rewrite lookup_insert_eq|].
      intros id' Hid' H%(inj (npz_path p)). by subst.
    + by apply Hfiles.
  - intros k Hk. rewrite Hfr.
    + apply lookup_insert_ne. intros <-. apply (Hk id); [by left|done].
    + intros id' Hid'. apply Hk. cbn [fmap list_fmap fst]. by right.
Qed.

Lemma load_npz_loop_ok (paths : list path) (ds : list Data) fs σ (obj : PDBDataset) :
  Forall2 (λ q d, ∃ m, load_from mol_load q fs = Ok m ∧ persisted m = d) paths ds →
  Forall (λ l, l < next σ) (mols obj) →
  ∃ σ' obj',
    load_npz_loop mol_load paths fs σ obj = (σ', Ok obj') ∧
    persisted <$> (cell σ' <$> mols obj')
    = (persisted <$> (cell σ <$> mols obj)) ++ ds.
Proof.
  intros Hload. revert σ obj.
  induction Hload as [|q d paths ds (m & Hq & Hd) _ IH]; intros σ obj Hwf.
  { exists σ, obj. by rewrite app_nil_r. }
  cbn [load_npz_loop]. rewrite Hq. cbn [alloc].
  set (σ1 := Store (<[next σ := m]> (cell σ)) (S (next σ))).
  destruct (IH σ1 (append obj (next σ))) as (σ' & obj' & Hrun & Hvals).
  { cbn [append mols σ1 next]. apply Forall_app. split.
    - eapply Forall_impl; [exact Hwf|]. cbn. lia.
    - apply Forall_singleton. lia. }
  exists σ', obj'. split; [done|]. rewrite Hvals.
  cbn [append mols]. rewrite !fmap_app, <- app_assoc. f_equal.
  - f_equal. apply list_fmap_ext. intros i l Hl. cbn [σ1 cell].
    apply fn_lookup_insert_ne. apply list_elem_of_lookup_2 in Hl.
    rewrite Forall_forall in Hwf. specialize (Hwf l Hl). lia.
  - cbn [fmap list_fmap σ1 cell app]. by rewrite fn_lookup_insert, Hd.
Qed.

(** Saving to a fresh path and loading in sorted order: the molecules come
    back in [load_order]. *)
Lemma save_then_load (self : PDBDataset) p σ fs (σ0 : store Mol) :
  (∀ k, p `prefix_of` k → fs !! k = None) →
  (∀ q c, q `prefix_of` p → fs !! q ≠ Some (File c)) →
  (∀ l, l ∈ mols self →
     ∃ m, mol_load (mol_compress (cell σ l)) = Ok m ∧
          persisted m = persisted (cell σ l)) →
  ∃ fs2 σ' self',
    save_npz mol_compress self p false σ fs = (fs2, Ok ()) ∧
    load_npz mol_load p true fs2 σ0 = (σ', Ok self') ∧
    persisted <$> (cell σ' <$> mols self')
    = (λ i, persisted (cell σ (mols self !!! i))) <$> load_order (len self).
Proof.
  intros Hfresh Hdirs Hround. unfold save_npz, path_exists.
  rewrite bool_decide_false; [|rewrite (Hfresh p) by done; by intros [? ?]].
  cbn [andb]. unfold makedirs.
  destruct (makedirs_from_ok [] p fs) as (fs1 & Hmk & Hfr1).
  { intros q c _ Hq. by apply Hdirs. }
  pose proof (makedirs_from_dirs [] p fs fs1 Hmk) as Hthere.
  rewrite Hmk. cbn [app] in Hfr1, Hthere.
  assert (∀ id, ¬ npz_path p id `prefix_of` p) as Hlong.
  { intros id [k Hk]. apply (f_equal length) in Hk.
    unfold npz_path in Hk. rewrite !length_app in Hk. cbn [length] in Hk. lia. }
  assert (∀ id, fs1 !! npz_path p id = None) as Hnone.
  { intros id. rewrite Hfr1 by apply Hlong. apply Hfresh. by apply prefix_app_r. }
  destruct (save_npz_loop_ok p (enumerate (mols self)) σ fs1)
    as (fs2 & -> & Hfiles & Hfr2).
  { rewrite enumerate_fst. apply NoDup_seq. }
  { exact Hthere. }
  { intros id _. by rewrite Hnone. }
  exists fs2.
  set (n := len self).
  assert (∀ i, i < n →
            fs2 !! npz_path p i
            = Some (File (mol_compress (cell σ (mols self !!! i))))) as Hin.
  { intros i Hi. apply Hfiles, elem_of_enumerate.
    by apply list_lookup_lookup_total_lt. }
  assert (rglob_npz p fs2 ≡ₚ npz_paths p n) as Hglob.
  { apply rglob_npz_Permutation.
    - intros i Hi. by rewrite (Hin i Hi).
    - intros k Hpre Hne Hk.
      destruct (decide (k ∈ npz_paths p n)) as [|Hnot]; [done|].
      rewrite Hfr2, Hfr1, (Hfresh k Hpre) in Hk; [by destruct Hk| |].
      + intros Hk'. apply Hne. by apply (anti_symm prefix).
      + rewrite enumerate_fst. intros id Hid%elem_of_seq ->.
        apply Hnot. unfold npz_paths. apply list_elem_of_fmap.
        exists id. split; [done|]. apply elem_of_seq. unfold n, len. lia. }
  unfold load_npz. rewrite (sorted_npz_paths p n _ Hglob).
  destruct (load_npz_loop_ok (npz_path p <$> load_order n)
              ((λ i, persisted (cell σ (mols self !!! i))) <$> load_order n)
              fs2 σ0 new_dataset) as (σ' & self' & Hrun & Hvals).
  { apply Forall2_fmap, Forall_Forall2_diag, Forall_forall.
    intros i Hi. rewrite load_order_Permutation in Hi. apply elem_of_seq in Hi.
    unfold load_from. rewrite (Hin i) by lia. apply Hround.
    apply list_elem_of_lookup_total_2. unfold n, len in Hi. lia. }
  { by apply Forall_nil. }
  exists σ', self'. split_and!; [done|exact Hrun|]. by rewrite Hvals.
Qed.

(** C4.  A dataset saved to a fresh path and loaded with [keep_order] comes
    back with the same number of molecules, and the persisted data of the
    loaded molecules are those of the saved ones up to order, given that a
    single molecule survives [compress] and [load].  The path is a plain
    one, so that what lies at and below it is what the code finds there. *)
Theorem save_load_npz_roundtrip (self : PDBDataset) p σ fs (σ0 : store Mol) :
  plain_path p = true →
  (∀ k, p `prefix_of` k → fs !! k = None) →
  (∀ q c, q `prefix_of` p → fs !! q ≠ Some (File c)) →
  (∀ l, l ∈ mols self →
     ∃ m, mol_load (mol_compress (cell σ l)) = Ok m ∧
          persisted m = persisted (cell σ l)) →
  ∃ fs2 σ' self',
    save_npz mol_compress self p false σ fs = (fs2, Ok ()) ∧
    load_npz mol_load p true fs2 σ0 = (σ', Ok self') ∧
    len self' = len self ∧
    persisted <$> (cell σ' <$> mols self') ≡ₚ persisted <$> (cell σ <$> mols self).
Proof.
  intros _ Hfresh Hdirs Hround.
  destruct (save_then_load self p σ fs σ0 Hfresh Hdirs Hround)
    as (fs2 & σ' & self' & Hsave & Hload & Hvals).
  exists fs2, σ', self'. split_and!; [done|done| |].
  - apply (f_equal length) in Hvals. rewrite !length_fmap in Hvals.
    unfold len at 1. rewrite Hvals, load_order_Permutation. apply length_seq.
  - rewrite Hvals, load_order_Permutation. unfold len.
    rewrite (fmap_seq_lookup_total (λ l, persisted (cell σ l))).
    by rewrite <- list_fmap_compose.
Qed.

(** C5.  [save_npz] on a path that exists, without [overwrite], raises
    [FileExistsError] and hands the file system back as it got it; the store
    and the container are only read. *)
Theorem save_npz_existing_path (self : PDBDataset) p σ fs :
  path_exists fs p = true →
  save_npz mol_compress self p false σ fs = (fs, Raise (FileExistsError p)).
Proof. intros Hex. unfold save_npz. by rewrite Hex. Qed.

(** C10.  The archives are named by position and sorted as strings, so with
    more than 10 molecules the load order is not the save order: the file of
    molecule 10 comes third, before that of molecule 2, while the loaded
    molecules are still the saved ones.  The path is a plain one. *)
Theorem load_npz_order_is_lexicographic (self : PDBDataset) p σ fs (σ0 : store Mol) :
  plain_path p = true →
  10 < len self →
  (∀ k, p `prefix_of` k → fs !! k = None) →
  (∀ q c, q `prefix_of` p → fs !! q ≠ Some (File c)) →
  (∀ l, l ∈ mols self →
     ∃ m, mol_load (mol_compress (cell σ l)) = Ok m ∧
          persisted m = persisted (cell σ l)) →
  ∃ fs2 σ' self',
    save_npz mol_compress self p false σ fs = (fs2, Ok ()) ∧
    load_npz mol_load p true fs2 σ0 = (σ', Ok self') ∧
    persisted <$> (cell σ' <$> mols self')
    = (λ i, persisted (cell σ (mols self !!! i))) <$> load_order (len self) ∧
    load_order (len self) ≡ₚ seq 0 (len self) ∧
    load_order (len self) ≠ seq 0 (len self) ∧
    load_order (len self) !! 2 = Some 10 ∧
    (∀ l2 l10, mols self' !! 2 = Some l2 → mols self !! 10 = Some l10 →
       persisted (cell σ' l2) = persisted (cell σ l10)) ∧
    sorted [npz_path p 2; npz_path p 10] = [npz_path p 10; npz_path p 2] ∧
    persisted <$> (cell σ' <$> mols self') ≡ₚ persisted <$> (cell σ <$> mols self).
Proof.
  intros _ Hn Hfresh Hdirs Hround.
  destruct (save_then_load self p σ fs σ0 Hfresh Hdirs Hround)
    as (fs2 & σ' & self' & Hsave & Hload & Hvals).
  exists fs2, σ', self'.
  assert (load_order (len self) !! 2 = Some 10) as Hthird.
  { by rewrite load_order_ten. }
  split_and!; [done|done|done|apply load_order_Permutation| |done| | |].
  - intros Heq. rewrite Heq, lookup_seq_lt in Hthird by lia. done.
  - intros l2 l10 Hl2 Hl10.
    apply (f_equal (λ v, v !! 2)) in Hvals.
    rewrite !list_lookup_fmap, Hl2, Hthird in Hvals. cbn in Hvals.
    injection Hvals as ->.
    by rewrite (list_lookup_total_correct _ _ _ Hl10).
  - apply (Sorted_unique path_le).
    + apply (Sorted_merge_sort path_le).
    + repeat constructor. apply path_le_snoc. by vm_compute.
    + unfold sorted. rewrite merge_sort_Permutation. apply Permutation_swap.
  - rewrite Hvals, load_order_Permutation. unfold len.
    rewrite (fmap_seq_lookup_total (λ l, persisted (cell σ l))).
    by rewrite <- list_fmap_compose.
Qed.

End PersistenceFacts.

(** * The scenarios on concrete molecules *)

Lemma simple_filter_confs_contract (max_energy : Z) (max_force : option Z)
    (m : Simple.molecule) :
  (Simple.filter_confs max_energy max_force m).2 = true
  ↔ 2 ≤ Simple.n_confs (Simple.filter_confs max_energy max_force m).1.
Proof. unfold Simple.filter_confs, Simple.n_confs. cbn. apply bool_decide_eq_true. Qed.

(** Scenario A: energies 0, 10, 100 and a window of 60. *)
Example scenario_A :
  Simple.filter_confs 60 None Simple.mol_a = (Simple.mol_of_energies [0; 10]%Z, true).
Proof. reflexivity. Qed.

(** Scenario B: energies 0, 200 and a window of 60; the molecule leaves the
    container. *)
Example scenario_B :
  Simple.filter_confs 60 None Simple.mol_b = (Simple.mol_of_energies [0]%Z, false) ∧
  mols (filter_confs Simple.filter_confs Simple.demo_dataset 60%Z None
          Simple.demo_store).2 = [0].
Proof. split; reflexivity. Qed.

(** Scenario C: labels equal to the reference pass for any sigma from 0 on. *)
Example scenario_C (sigma_energy sigma_force : Z) :
  (0 ≤ sigma_energy)%Z → (0 ≤ sigma_force)%Z →
  (Simple.conf_check Simple.template_scorer (sigma_energy, sigma_force) Simple.mol_a).2
  = true.
Proof.
  intros He Hf. unfold Simple.conf_check. cbn [fst snd].
  apply andb_true_iff. split.
  - unfold Simple.energy_criterion.
    change (Simple.score_all Simple.template_scorer Simple.mol_a)
      with (Some [(0, 0); (10, 0); (100, 0)]%Z).
    apply bool_decide_eq_true.
    change (0 ≤ sigma_energy * sigma_energy * 10100)%Z. nia.
  - unfold Simple.force_criterion.
    change (Simple.score_all Simple.template_scorer Simple.mol_a)
      with (Some [(0, 0); (10, 0); (100, 0)]%Z).
    apply bool_decide_eq_true.
    change (0 ≤ sigma_force * sigma_force * 0)%Z. nia.
Qed.

(** Scenario D: one group without gradients among three. *)
Example scenario_D :
  ∃ σ' st',
    from_hdf5_loop Arrays.build_molecule Arrays.demo_format None true
      Arrays.demo_archive Arrays.demo_store (ingest_start true) = (σ', Ok st') ∧
    failed_counter st' = 1 ∧ counter st' = 2 ∧ mols (obj st') = [3; 4].
Proof. do 2 eexists. split; [vm_compute; reflexivity|]. done. Qed.

(** The record built from the good group of scenario D: the energies 1 and
    4 are stored as -3/2 and 3/2, relative to their mean. *)
Example scenario_D_record :
  read_group Arrays.build_molecule Arrays.demo_format Arrays.good_group
  = Ok {| Arrays.elements := [6; 1]%Z;
          Arrays.xyz := [0; 0; 0; 1; 1; 1]%Q;
          Arrays.energies := [-3 # 2; 3 # 2]%Q;
          Arrays.gradients := [2; 4]%Q |}.
Proof. reflexivity. Qed.

(** Paths with a component that is not the name of an entry are not plain. *)
Example plain_path_examples :
  plain_path ["data"] = true ∧ plain_path ["runs"; "data"] = true ∧
  plain_path ["data"; ".."] = false ∧ plain_path ["."; "data"] = false ∧
  plain_path ["runs/data"] = false ∧ plain_path [] = false.
Proof. by vm_compute. Qed.

Example load_order_12 : load_order 12 = [0; 1; 10; 11; 2; 3; 4; 5; 6; 7; 8; 9].
Proof. by vm_compute. Qed.

(** * The theorems on concrete inputs *)

(** Decides a closed decidable proposition by evaluation. *)
Ltac by_evaluation :=
  match goal with
  | |- ?P => apply (bool_decide_unpack P); vm_compute; exact I
  end.

Lemma filter_confs_keeps_viable_witness :
  NoDup (mols Simple.demo_dataset) ∧
  mols (filter_confs Simple.filter_confs Simple.demo_dataset 60%Z None
          Simple.demo_store).2
  = filter (λ l, (Simple.filter_confs 60 None (cell Simple.demo_store l)).2 = true)
      (mols Simple.demo_dataset) ∧
  (1 ∈ mols Simple.demo_dataset ∧
   1 ∉ mols (filter_confs Simple.filter_confs Simple.demo_dataset 60%Z None
               Simple.demo_store).2).
Proof.
  assert (NoDup (mols Simple.demo_dataset)) as Hnd by by_evaluation.
  destruct (filter_confs_keeps_viable Simple.n_confs Simple.filter_confs
              Simple.demo_dataset 60%Z None Simple.demo_store) as [_ Howned].
  destruct (Howned Hnd) as (_ & _ & _ & Hgone & Hfilter).
  { intros l _. apply simple_filter_confs_contract. }
  split_and!; [exact Hnd|exact Hfilter|by_evaluation|].
  apply Hgone; [by_evaluation|]. vm_compute. lia.
Defined.

Lemma filter_validity_keeps_valid_witness :
  mols (filter_validity Simple.conf_check Simple.demo_dataset3
          Simple.template_scorer (1, 1)%Z Simple.demo_store).2 = [0; 1] ∧
  2 ∉ mols (filter_validity Simple.conf_check Simple.demo_dataset3
              Simple.template_scorer (1, 1)%Z Simple.demo_store).2.
Proof.
  destruct (filter_validity_keeps_valid Simple.conf_check
              Simple.energy_criterion Simple.force_criterion
              Simple.demo_dataset3 Simple.template_scorer 1%Z 1%Z Simple.demo_store)
    as [_ Hpure].
  destruct Hpure as (Hfilter & _ & Hgone & _).
  - intros l _. reflexivity.
  - intros l _. reflexivity.
  - split; [rewrite Hfilter; reflexivity|].
    apply Hgone; [by_evaluation|reflexivity].
Defined.

Lemma parametrize_stops_at_first_failure_witness :
  (parametrize Simple.parametrize Simple.demo_dataset3 Simple.template_scorer
     "_amber99sbildn" None Simple.demo_store).2
  = Raise (ExternalError "scorer") ∧
  cell (parametrize Simple.parametrize Simple.demo_dataset3 Simple.template_scorer
          "_amber99sbildn" None Simple.demo_store).1 1
  = Simple.mol_b.
Proof.
  destruct (parametrize_stops_at_first_failure Simple.parametrize
              Simple.demo_dataset3 Simple.template_scorer "_amber99sbildn" None
              Simple.demo_store 1 2 (ExternalError "scorer"))
    as (Hraise & _ & Howned).
  - reflexivity.
  - repeat constructor.
  - reflexivity.
  - split; [exact Hraise|].
    destruct Howned as (_ & Hafter & _); [by_evaluation|reflexivity|].
    exact (Hafter 2 1 ltac:(lia) eq_refl).
Defined.

Lemma append_stores_any_record_witness :
  Simple.n_confs (cell (Simple.store_of [Simple.mol_of_energies []]) 0) = 0 ∧
  mols (append new_dataset 0) = [0] ∧
  mols (append Simple.demo_dataset 2) !! 1 = Some 1.
Proof.
  destruct (append_stores_any_record new_dataset 0) as (Hmols & _).
  destruct (append_stores_any_record Simple.demo_dataset 2) as (_ & _ & _ & Hold & _).
  split_and!; [reflexivity|exact Hmols|].
  transitivity (mols Simple.demo_dataset !! 1); [|reflexivity].
  apply Hold. vm_compute. lia.
Defined.

Lemma to_dgl_modes_witness :
  to_dgl Simple.to_dgl Simple.split_dataset Simple.demo_dataset
    (Some [1; -1; 0]%Z) None 0%Z Simple.demo_store
  = Ok (inl [Simple.to_dgl Simple.mol_b; Simple.to_dgl Simple.mol_b;
             Simple.to_dgl Simple.mol_a]).
Proof.
  destruct (to_dgl_modes Simple.to_dgl Simple.split_dataset Simple.demo_dataset
              Simple.demo_store) as (_ & Hsub & _).
  rewrite Hsub; [reflexivity|].
  repeat constructor; vm_compute; congruence.
Defined.

Lemma from_hdf5_skips_failed_group_witness :
  ∃ σ' st',
    from_hdf5_loop Arrays.build_molecule Arrays.demo_format None true
      Arrays.demo_archive Arrays.demo_store (ingest_start true) = (σ', Ok st') ∧
    failed_counter st' = 1 ∧
    len (obj st') = 2.
Proof.
  destruct (from_hdf5_skips_failed_group Arrays.build_molecule Arrays.demo_format)
    as (_ & _ & Hone & _).
  destruct (Hone [("a", Arrays.good_group)] "b" Arrays.bad_group
              [("c", Arrays.good_group)] true Arrays.demo_store
              (KeyError "dft_total_gradient"))
    as (σ' & st' & Hrun & Hfailed & _ & Hlen).
  - repeat constructor.
  - repeat constructor.
  - reflexivity.
  - exists σ', st'. split_and!; [exact Hrun|exact Hfailed|exact Hlen].
Defined.

Lemma from_hdf5_soft_cap_witness :
  ∃ σ' d,
    from_hdf5 Arrays.build_molecule Arrays.demo_archive Arrays.demo_format
      (Some 0%Z) true true Arrays.demo_store = (σ', Ok d) ∧
    Z.of_nat (len d) = 1%Z.
Proof.
  destruct (from_hdf5_soft_cap Arrays.build_molecule Arrays.demo_format)
    as (_ & _ & _ & Hreach & _).
  apply (Hreach 0%Z Arrays.demo_archive true Arrays.demo_store).
  split; [lia|]. vm_compute. reflexivity.
Defined.

Lemma save_load_npz_roundtrip_witness :
  ∃ fs2 σ' self',
    save_npz id Simple.demo_dataset ["data"] false Simple.demo_store ∅ = (fs2, Ok ()) ∧
    load_npz Ok ["data"] true fs2 Simple.demo_store = (σ', Ok self') ∧
    len self' = len Simple.demo_dataset ∧
    cell σ' <$> mols self' ≡ₚ [Simple.mol_a; Simple.mol_b].
Proof.
  destruct (save_load_npz_roundtrip id Ok id Simple.demo_dataset ["data"]
              Simple.demo_store ∅ Simple.demo_store)
    as (fs2 & σ' & self' & Hsave & Hload & Hlen & Hperm).
  - reflexivity.
  - intros k _. apply lookup_empty.
  - intros q c _. rewrite lookup_empty. discriminate.
  - intros l _. eexists. split; reflexivity.
  - exists fs2, σ', self'. rewrite !list_fmap_id in Hperm.
    split_and!; [exact Hsave|exact Hload|exact Hlen|exact Hperm].
Defined.

Lemma save_npz_existing_path_witness :
  path_exists ({[ ["data"] := Dir ]} : gmap path (node Simple.molecule)) ["data"] = true ∧
  save_npz id Simple.demo_dataset ["data"] false Simple.demo_store
    {[ ["data"] := Dir ]}
  = ({[ ["data"] := Dir ]}, Raise (FileExistsError ["data"])).
Proof.
  assert (path_exists ({[ ["data"] := Dir ]} : gmap path (node Simple.molecule))
            ["data"] = true) as Hex.
  { unfold path_exists. apply bool_decide_eq_true. rewrite lookup_singleton_eq. eauto. }
  split; [exact Hex|].
  exact (save_npz_existing_path id Simple.demo_dataset ["data"] Simple.demo_store _ Hex).
Defined.

Lemma load_npz_order_is_lexicographic_witness :
  ∃ fs2 σ' self',
    save_npz id Simple.dataset11 ["data"] false Simple.store11 ∅ = (fs2, Ok ()) ∧
    load_npz Ok ["data"] true fs2 Simple.store11 = (σ', Ok self') ∧
    (cell σ' <$> mols self') !! 2 = Some (Simple.mol_i 10).
Proof.
  destruct (load_npz_order_is_lexicographic id Ok id Simple.dataset11 ["data"]
              Simple.store11 ∅ Simple.store11)
    as (fs2 & σ' & self' & Hsave & Hload & Hvals & _ & _ & Hthird & _).
  - reflexivity.
  - vm_compute. lia.
  - intros k _. apply lookup_empty.
  - intros q c _. rewrite lookup_empty. discriminate.
  - intros l _. eexists. split; reflexivity.
  - exists fs2, σ', self'. split_and!; [exact Hsave|exact Hload|].
    rewrite !list_fmap_id in Hvals. rewrite Hvals, list_lookup_fmap, Hthird.
    reflexivity.
Defined.

(** * Further properties of the container *)

(** ** Indexing *)

Lemma py_getitem_out_of_range {A} (l : list A) (idx : Z) :
  ¬ (- Z.of_nat (length l) ≤ idx < Z.of_nat (length l))%Z →
  py_getitem l idx = Raise IndexError.
Proof.
  intros Hr. unfold py_getitem, py_offset.
  destruct (bool_decide (idx < 0)%Z) eqn:Hneg.
  - apply bool_decide_eq_true in Hneg. by rewrite bool_decide_false by lia.
  - apply bool_decide_eq_false in Hneg. rewrite bool_decide_true by lia.
    rewrite (proj2 (lookup_ge_None l (Z.to_nat idx))) by lia. done.
Qed.

Lemma py_offset_mod (n : nat) (idx : Z) :
  (- Z.of_nat n ≤ idx < Z.of_nat n)%Z →
  py_offset n idx = (idx `mod` Z.of_nat n)%Z.
Proof.
  intros Hr. unfold py_offset. case_bool_decide.
  - apply (Z.mod_unique_pos _ _ (-1)); lia.
  - symmetry. apply Z.mod_small. lia.
Qed.

Lemma py_getitem_Ok {A} (l : list A) (idx : Z) (x : A) :
  py_getitem l idx = Ok x ↔
  (- Z.of_nat (length l) ≤ idx < Z.of_nat (length l))%Z ∧
  l !! Z.to_nat (idx `mod` Z.of_nat (length l)) = Some x.
Proof.
  destruct (decide (- Z.of_nat (length l) ≤ idx < Z.of_nat (length l))%Z) as [Hr|Hr].
  - rewrite <- (py_offset_mod _ _ Hr). unfold py_getitem.
    assert (0 ≤ py_offset (length l) idx)%Z as Hoff.
    { unfold py_offset. case_bool_decide; lia. }
    rewrite bool_decide_true by done.
    destruct (l !! Z.to_nat (py_offset (length l) idx)) as [y|].
    + split; [by intros [= ->]|by intros [_ [= ->]]].
    + split; [done|by intros [_ ?]].
  - rewrite py_getitem_out_of_range by done. split; [done|by intros [? _]].
Qed.

(** X1.  [ds[idx]] gives a molecule exactly for the indices from [-len] to
    [len - 1], the negative ones counting from the end; every other index
    raises [IndexError] and nothing else is ever raised. *)
Theorem getitem_in_range_iff (self : PDBDataset) (idx : Z) :
  (∀ l, getitem self idx = Ok l ↔
     (- Z.of_nat (len self) ≤ idx < Z.of_nat (len self))%Z ∧
     mols self !! Z.to_nat (idx `mod` Z.of_nat (len self)) = Some l) ∧
  (getitem self idx = Raise IndexError ↔
     ¬ (- Z.of_nat (len self) ≤ idx < Z.of_nat (len self))%Z) ∧
  (∀ e, getitem self idx = Raise e → e = IndexError).
Proof.
  unfold getitem, len. split_and!.
  - intros l. apply py_getitem_Ok.
  - split.
    + intros Hraise Hr.
      destruct (lookup_lt_is_Some_2 (mols self)
                  (Z.to_nat (idx `mod` Z.of_nat (length (mols self))))) as [l Hl].
      { pose proof (Z.mod_pos_bound idx (Z.of_nat (length (mols self)))). lia. }
      assert (py_getitem (mols self) idx = Ok l) as Hok by by apply py_getitem_Ok.
      congruence.
    + apply py_getitem_out_of_range.
  - intros e He.
    destruct (decide (- Z.of_nat (length (mols self)) ≤ idx
                      < Z.of_nat (length (mols self)))%Z) as [Hr|Hr].
    + rewrite (py_getitem_in_range _ _ Hr) in He. done.
    + rewrite py_getitem_out_of_range in He by done. congruence.
Qed.

(** X2.  After [append] the new molecule is [ds[-1]] and [ds[len - 1]]; the
    molecules that were there keep their non-negative indices, and their
    negative indices move down by one. *)
Theorem getitem_append (self : PDBDataset) (mol : loc) :
  getitem (append self mol) (-1) = Ok mol ∧
  getitem (append self mol) (Z.of_nat (len self)) = Ok mol ∧
  (∀ idx, (0 ≤ idx < Z.of_nat (len self))%Z →
     getitem (append self mol) idx = getitem self idx) ∧
  (∀ idx, (- Z.of_nat (len self) ≤ idx < 0)%Z →
     getitem (append self mol) (idx - 1) = getitem self idx).
Proof.
  unfold getitem, append, len. cbn [mols].
  assert (length (mols self ++ [mol]) = S (length (mols self))) as Hlen.
  { rewrite length_app. cbn. lia. }
  assert (∀ (l : list loc) i, (0 ≤ i)%Z →
            py_getitem l i = match l !! Z.to_nat i with
                             | Some x => Ok x | None => Raise IndexError end) as Hpos.
  { intros l i Hi. unfold py_getitem, py_offset.
    rewrite (bool_decide_false (i < 0)%Z) by lia.
    by rewrite bool_decide_true by lia. }
  assert (∀ (l : list loc) i, (i < 0)%Z → (0 ≤ Z.of_nat (length l) + i)%Z →
            py_getitem l i = match l !! Z.to_nat (Z.of_nat (length l) + i) with
                             | Some x => Ok x | None => Raise IndexError end) as Hneg.
  { intros l i Hi Hi'. unfold py_getitem, py_offset.
    rewrite (bool_decide_true (i < 0)%Z) by lia.
    by rewrite bool_decide_true by lia. }
  split_and!.
  - rewrite Hneg by (rewrite ?Hlen; lia). rewrite Hlen.
    replace (Z.to_nat (Z.of_nat (S (length (mols self))) + -1))
      with (length (mols self)) by lia.
    by rewrite lookup_app_r, Nat.sub_diag.
  - rewrite Hpos by lia. rewrite Nat2Z.id.
    by rewrite lookup_app_r, Nat.sub_diag.
  - intros idx Hidx. rewrite !Hpos by lia. by rewrite lookup_app_l by lia.
  - intros idx Hidx. rewrite !Hneg by (rewrite ?Hlen; lia). rewrite Hlen.
    replace (Z.to_nat (Z.of_nat (S (length (mols self))) + (idx - 1)))
      with (Z.to_nat (Z.of_nat (length (mols self)) + idx)) by lia.
    by rewrite lookup_app_l by lia.
Qed.

(** ** Graph export: index errors and [save_dgl] *)

Lemma rmapM_raise {A B} (f : A → result B) (l : list A) (E : exn) :
  (∀ x e, f x = Raise e → e = E) →
  Exists (λ x, is_ok (f x) = false) l →
  rmapM f l = Raise E.
Proof.
  intros Hkind Hex. induction l as [|x l IH]; [by apply Exists_nil in Hex|].
  cbn [rmapM]. destruct (f x) as [y|e] eqn:Hx.
  - apply Exists_cons in Hex as [Hx'|Hex]; [by rewrite Hx in Hx'|].
    cbn [rbind]. by rewrite IH.
  - cbn [rbind]. by rewrite (Hkind x e Hx).
Qed.

Lemma rmapM_Raise_Exists {A B} (f : A → result B) (l : list A) (e : exn) :
  rmapM f l = Raise e → Exists (λ x, f x = Raise e) l.
Proof.
  induction l as [|x l IH]; [done|].
  cbn [rmapM]. destruct (f x) as [y|e'] eqn:Hx.
  - cbn [rbind]. destruct (rmapM f l) as [ys|e'']; [done|].
    cbn [rbind]. intros [= ->]. apply Exists_cons_tl. by apply IH.
  - cbn [rbind]. intros [= ->]. by apply Exists_cons_hd.
Qed.

Section GraphExportErrors.
Context {Mol Float Graph Split Disk : Type}.
Variable mol_to_dgl : Mol → Graph.
Variable split_dataset : list Graph → list Float → Z → result Split.
Variable save_graphs : path → list Graph + Split → Disk → Disk * result unit.






End GraphExportErrors.

(** ** Graph export: which error comes out *)

Lemma rmapM_first_raise {A B} (f : A → result B) (before : list A) (x : A)
    (after : list A) (e : exn) :
  Forall (λ y, is_ok (f y) = true) before →
  f x = Raise e →
  rmapM f (before ++ x :: after) = Raise e.
Proof.
  intros Hok Hx. induction Hok as [|y before Hy _ IH].
  - cbn [app rmapM]. by rewrite Hx.
  - cbn [app rmapM]. destruct (f y) as [z|?]; [|done]. cbn [rbind]. by rewrite IH.
Qed.

Section GraphExportRaising.
Context {Mol Float Graph Split : Type}.
Variable mol_to_dgl : Mol → result Graph.
Variable split_dataset : list Graph → list Float → Z → result Split.

(** The embedding with a conversion that returns is the case of a conversion
    that never raises. *)
Lemma to_dgl_never_raising (conv : Mol → Graph) (self : PDBDataset)
    (idxs : option (list Z)) (split : option (list Float)) (seed : Z) (σ : store Mol) :
  Raising.to_dgl (λ m, Ok (conv m)) split_dataset self idxs split seed σ
  = to_dgl conv split_dataset self idxs split seed σ.
Proof. reflexivity. Qed.

Lemma raising_get_graph_out_of_range (self : PDBDataset) (σ : store Mol) (idx : Z) :
  ¬ (- Z.of_nat (len self) ≤ idx < Z.of_nat (len self))%Z →
  Raising.get_graph mol_to_dgl self σ idx = Raise IndexError.
Proof. intros Hr. unfold Raising.get_graph. by rewrite py_getitem_out_of_range. Qed.

Lemma raising_get_graph_Raise (self : PDBDataset) (σ : store Mol) (idx : Z) (e : exn) :
  (∀ l, l ∈ mols self → is_ok (mol_to_dgl (cell σ l)) = true) →
  Raising.get_graph mol_to_dgl self σ idx = Raise e →
  e = IndexError ∧ ¬ (- Z.of_nat (len self) ≤ idx < Z.of_nat (len self))%Z.
Proof.
  intros Hconv He. unfold Raising.get_graph in He.
  destruct (py_getitem (mols self) idx) as [l|e'] eqn:Hget.
  - cbn [rbind] in He. apply py_getitem_Ok in Hget as [_ Hl].
    apply list_elem_of_lookup_2 in Hl. specialize (Hconv l Hl).
    by rewrite He in Hconv.
  - cbn [rbind] in He. injection He as ->.
    destruct (decide (- Z.of_nat (len self) ≤ idx < Z.of_nat (len self))%Z) as [Hr|Hr].
    + unfold len in Hr. by rewrite py_getitem_in_range in Hget.
    + rewrite py_getitem_out_of_range in Hget by done. by injection Hget as <-.
Qed.

(** X3.  [to_dgl] raises the error of the first index that fails, whatever
    the split, and an index outside [-len, len) fails with [IndexError]
    before any conversion of its molecule.  When every molecule of the
    container can be converted, an index out of range makes the call raise
    [IndexError], and without a split nothing else makes it raise.  On an
    empty container every non-empty index list raises [IndexError]. *)
Theorem to_dgl_index_error (self : PDBDataset) (idxs : list Z) (σ : store Mol) :
  (∀ before idx after e,
     idxs = before ++ idx :: after →
     Forall (λ i, is_ok (Raising.get_graph mol_to_dgl self σ i) = true) before →
     Raising.get_graph mol_to_dgl self σ idx = Raise e →
     ∀ split seed,
       Raising.to_dgl mol_to_dgl split_dataset self (Some idxs) split seed σ = Raise e) ∧
  (∀ idx, ¬ (- Z.of_nat (len self) ≤ idx < Z.of_nat (len self))%Z →
     Raising.get_graph mol_to_dgl self σ idx = Raise IndexError) ∧
  ((∀ l, l ∈ mols self → is_ok (mol_to_dgl (cell σ l)) = true) →
   (Exists (λ idx, ¬ (- Z.of_nat (len self) ≤ idx < Z.of_nat (len self))%Z) idxs →
    ∀ split seed,
      Raising.to_dgl mol_to_dgl split_dataset self (Some idxs) split seed σ
      = Raise IndexError) ∧
   (∀ seed e,
      Raising.to_dgl mol_to_dgl split_dataset self (Some idxs) None seed σ = Raise e →
      e = IndexError ∧
      Exists (λ idx, ¬ (- Z.of_nat (len self) ≤ idx < Z.of_nat (len self))%Z) idxs)) ∧
  (len self = 0 → idxs ≠ [] →
   ∀ split seed,
     Raising.to_dgl mol_to_dgl split_dataset self (Some idxs) split seed σ
     = Raise IndexError).
Proof.
  assert (∀ before idx after e,
     idxs = before ++ idx :: after →
     Forall (λ i, is_ok (Raising.get_graph mol_to_dgl self σ i) = true) before →
     Raising.get_graph mol_to_dgl self σ idx = Raise e →
     ∀ split seed,
       Raising.to_dgl mol_to_dgl split_dataset self (Some idxs) split seed σ = Raise e)
    as Hfirst.
  { intros before idx after e -> Hbefore Hidx split seed. unfold Raising.to_dgl.
    by rewrite (rmapM_first_raise _ before idx after e Hbefore Hidx). }
  split_and!; [exact Hfirst|apply raising_get_graph_out_of_range| |].
  - intros Hconv. split.
    + intros Hex split seed. unfold Raising.to_dgl.
      rewrite (rmapM_raise _ _ IndexError); [done| |].
      * intros idx e He. by apply raising_get_graph_Raise in He as [-> _].
      * eapply Exists_impl; [exact Hex|]. intros idx Hidx. cbn beta.
        by rewrite raising_get_graph_out_of_range.
    + intros seed e. unfold Raising.to_dgl.
      destruct (rmapM _ _) as [glist|e'] eqn:Hmap; [done|].
      cbn [rbind]. intros [= ->].
      apply rmapM_Raise_Exists in Hmap.
      assert (Exists (λ idx, e = IndexError ∧
                ¬ (- Z.of_nat (len self) ≤ idx < Z.of_nat (len self))%Z) idxs) as Hex.
      { eapply Exists_impl; [exact Hmap|]. intros idx.
        by apply raising_get_graph_Raise. }
      split.
      * apply Exists_exists in Hex as (idx & _ & -> & _). done.
      * eapply Exists_impl; [exact Hex|]. by intros idx [_ ?].
  - intros Hempty Hne. destruct idxs as [|idx idxs]; [done|].
    apply (Hfirst [] idx idxs IndexError); [done|by constructor|].
    apply raising_get_graph_out_of_range. rewrite Hempty. lia.
Qed.

End GraphExportRaising.

(** ** The validity filter: its counter, and running it twice *)

Lemma select_kept_length {A} (keep : list bool) (l : list A) :
  length keep = length l →
  length (select_kept keep l) + length (filter (λ b, b = false) keep) = length l.
Proof.
  revert keep. induction l as [|x l IH]; intros [|b keep] Hlen; try done.
  rewrite select_kept_cons, length_app, filter_cons.
  injection Hlen as Hlen. specialize (IH keep Hlen).
  destruct b; cbn [length app].
  - rewrite decide_False by done. lia.
  - rewrite decide_True by done. cbn [length]. lia.
Qed.

Section ValidityMore.
Context {Mol Float ForceField : Type}.
Variable mol_conf_check : ForceField → Float * Float → Mol → Mol * bool.

Lemma filter_validity_loop_removed forcefield sigmas todo (σ : store Mol) keep removed :
  (filter_validity_loop mol_conf_check forcefield sigmas todo σ keep removed).2
  = removed
    + length (filter (λ b, b = false)
                (call_all (mol_conf_check forcefield sigmas) todo σ).2).
Proof.
  revert σ keep removed. induction todo as [|l todo IH]; intros σ keep removed.
  { cbn. lia. }
  cbn [filter_validity_loop call_all].
  destruct (call σ l (mol_conf_check forcefield sigmas)) as [σ1 b].
  rewrite IH. destruct (call_all _ todo σ1) as [σ2 rs]. cbn [snd].
  rewrite filter_cons. destruct b.
  - rewrite decide_False by done. lia.
  - rewrite decide_True by done. cbn [length]. lia.
Qed.

(** X5.  The counter [removed] that [filter_validity] keeps for its progress
    line is the number of molecules the pass drops: together with the new
    length it gives the old one, and the container never grows. *)
Theorem filter_validity_removed_count (self : PDBDataset) (forcefield : ForceField)
    (sigmas : Float * Float) (σ : store Mol) :
  let removed :=
    (filter_validity_loop mol_conf_check forcefield sigmas (mols self) σ [] 0).2 in
  let self' := (filter_validity mol_conf_check self forcefield sigmas σ).2 in
  removed + len self' = len self ∧ len self' ≤ len self.
Proof.
  intros removed self'. subst removed self'.
  rewrite filter_validity_loop_removed, filter_validity_positions.
  cbn [snd set_mols mols len].
  pose proof (select_kept_length
                (call_all (mol_conf_check forcefield sigmas) (mols self) σ).2
                (mols self) (call_all_length _ _ _)) as Hlen.
  unfold len, set_mols. cbn [mols]. lia.
Qed.

(** X6.  With a check that only reads the molecule, a second
    [filter_validity] pass with the same arguments removes nothing: the first
    pass leaves only molecules that pass. *)
Theorem filter_validity_idempotent (self : PDBDataset) (forcefield : ForceField)
    (sigmas : Float * Float) (σ : store Mol) :
  (∀ l, l ∈ mols self →
     (mol_conf_check forcefield sigmas (cell σ l)).1 = cell σ l) →
  let once := filter_validity mol_conf_check self forcefield sigmas σ in
  (filter_validity mol_conf_check once.2 forcefield sigmas once.1).2 = once.2 ∧
  (∀ l, l ∈ mols once.2 →
     (mol_conf_check forcefield sigmas (cell once.1 l)).2 = true).
Proof.
  intros Hro once. subst once. rewrite !filter_validity_positions. cbn [fst snd].
  destruct (call_all_readonly (mol_conf_check forcefield sigmas) (mols self) σ Hro)
    as [Hflags Hcells].
  set (σ1 := (call_all (mol_conf_check forcefield sigmas) (mols self) σ).1) in *.
  rewrite Hflags.
  rewrite (select_kept_fmap (λ l, (mol_conf_check forcefield sigmas (cell σ l)).2)).
  set (kept := filter (λ l, (mol_conf_check forcefield sigmas (cell σ l)).2 = true)
                 (mols self)).
  cbn [set_mols mols].
  assert (∀ l, l ∈ kept → (mol_conf_check forcefield sigmas (cell σ1 l)).2 = true)
    as Hpass.
  { intros l [Hl _]%list_elem_of_filter. by rewrite Hcells. }
  split; [|exact Hpass].
  destruct (call_all_readonly (mol_conf_check forcefield sigmas) kept σ1) as [Hflags2 _].
  { intros l [_ Hl]%list_elem_of_filter. rewrite Hcells. by apply Hro. }
  rewrite Hflags2.
  rewrite (select_kept_fmap (λ l, (mol_conf_check forcefield sigmas (cell σ1 l)).2)).
  unfold set_mols. cbn [info mols]. f_equal.
  rewrite (list_filter_iff _ (λ l, (mol_conf_check forcefield sigmas (cell σ l)).2 = true)).
  - unfold kept. apply list_filter_filter_r. done.
  - intros l. by rewrite Hcells.
Qed.

End ValidityMore.

(** ** Parametrization that goes through *)

Section ParametrizeMore.
Context {Mol ForceField Charges : Type}.
Variable mol_parametrize :
  ForceField → string → option Charges → Mol → Mol * result unit.

Lemma parametrize_loop_Ok_inv forcefield suffix get_charges todo (σ σ' : store Mol) :
  parametrize_loop mol_parametrize forcefield suffix get_charges todo σ = (σ', Ok ()) →
  Forall (λ r, r = Ok ())
    (call_all (mol_parametrize forcefield suffix get_charges) todo σ).2.
Proof.
  revert σ. induction todo as [|l todo IH]; intros σ; [by constructor|].
  cbn [parametrize_loop call_all].
  destruct (call σ l (mol_parametrize forcefield suffix get_charges)) as [σ1 [[]|e]];
    [|done].
  intros Hrun. apply IH in Hrun.
  destruct (call_all _ todo σ1) as [σ2 rs]. cbn [snd] in *. by constructor.
Qed.

(** X7.  [parametrize] returns normally exactly when every call on a
    molecule succeeds, and the store is then the one these calls leave, in
    container order.  When the container holds each molecule once, every
    molecule of it has been parametrized exactly once and no other object has
    changed. *)
Theorem parametrize_all_succeed (self : PDBDataset) (forcefield : ForceField)
    (suffix : string) (get_charges : option Charges) (σ : store Mol) :
  let mp := mol_parametrize forcefield suffix get_charges in
  let run := call_all mp (mols self) σ in
  ((parametrize mol_parametrize self forcefield suffix get_charges σ).2 = Ok ()
   ↔ Forall (λ r, r = Ok ()) run.2) ∧
  (Forall (λ r, r = Ok ()) run.2 →
   parametrize mol_parametrize self forcefield suffix get_charges σ = (run.1, Ok ()) ∧
   (NoDup (mols self) →
    (∀ l, l ∈ mols self → cell run.1 l = (mp (cell σ l)).1) ∧
    (∀ l, l ∉ mols self → cell run.1 l = cell σ l))).
Proof.
  intros mp run.
  assert (Forall (λ r, r = Ok ()) run.2 →
          parametrize mol_parametrize self forcefield suffix get_charges σ
          = (run.1, Ok ())) as Hok.
  { intros Hall. unfold parametrize.
    rewrite <- (app_nil_r (mols self)) at 1.
    by rewrite parametrize_loop_app. }
  split.
  - split.
    + unfold parametrize.
      destruct (parametrize_loop _ _ _ _ _ _) as [σ' [[]|e]] eqn:Hrun; [|done].
      intros _. by eapply parametrize_loop_Ok_inv.
    + intros Hall. by rewrite Hok.
  - intros Hall. split; [by apply Hok|]. intros Hnd. split.
    + by apply call_all_NoDup.
    + intros l Hl. by apply call_all_frame.
Qed.

End ParametrizeMore.
(** ** Ingestion: new objects, strict mode, the SPICE preset *)

Section IngestionMore.
Context {Mol Arr PhysUnit : Type}.
Variable build_molecule :
  PhysUnit → PhysUnit → PhysUnit → Arr → Arr → Arr → Arr → result Mol.
Implicit Types (fmt : h5_format PhysUnit) (f : list (string * gmap string Arr))
  (σ : store Mol) (st : ingest_state).

Lemma from_hdf5_loop_alloc fmt n_max skip f σ st :
  let run := from_hdf5_loop build_molecule fmt n_max skip f σ st in
  (∀ l, l < next σ → cell run.1 l = cell σ l) ∧
  next σ ≤ next run.1 ∧
  ∀ st', run.2 = Ok st' →
    ∃ k, mols (obj st') = mols (obj st) ++ seq (next σ) k ∧
         next run.1 = next σ + k ∧
         info (obj st') = info (obj st).
Proof.
  revert σ st. induction f as [|[name g] f IH]; intros σ st; cbn zeta.
  { cbn [from_hdf5_loop fst snd]. split_and!; [done|done|].
    intros st' [= <-]. exists 0. by rewrite app_nil_r, Nat.add_0_r. }
  cbn [from_hdf5_loop].
  destruct (cap_exceeded n_max (obj st)).
  { cbn [fst snd]. split_and!; [done|done|].
    intros st' [= <-]. exists 0. by rewrite app_nil_r, Nat.add_0_r. }
  destruct (read_group build_molecule fmt g) as [m|e].
  - cbn [alloc].
    set (σ1 := Store (<[next σ := m]> (cell σ)) (S (next σ))).
    destruct (IH σ1 (stored st (next σ))) as (Hcells & Hnext & Hok).
    cbn [σ1 next] in Hcells, Hnext, Hok. split_and!.
    + intros l Hl. rewrite Hcells by lia. cbn [σ1 cell].
      apply fn_lookup_insert_ne. lia.
    + lia.
    + intros st' Hst'. destruct (Hok st' Hst') as (k & Hmols & Hn & Hinfo).
      exists (S k). cbn [stored obj append mols info] in Hmols, Hinfo.
      split_and!; [|lia|done].
      rewrite Hmols, <- app_assoc. done.
  - destruct skip.
    + destruct (IH σ (failed st)) as (Hcells & Hnext & Hok). split_and!; [done|done|].
      intros st' Hst'. by apply Hok.
    + cbn [fst snd]. split_and!; [done|done|]. by intros st'.
Qed.

(** X8.  [from_hdf5] never changes an object that was there before the call,
    whatever its outcome.  The container it returns holds newly created
    objects only, each exactly once, in the order of creation, and carries
    the [info] flag of the call. *)
Theorem from_hdf5_fresh_objects fmt n_max skip f inf σ :
  let run := from_hdf5 build_molecule f fmt n_max skip inf σ in
  (∀ l, l < next σ → cell run.1 l = cell σ l) ∧
  ∀ d, run.2 = Ok d →
    mols d = seq (next σ) (len d) ∧
    NoDup (mols d) ∧
    (∀ l, l ∈ mols d → next σ ≤ l) ∧
    next run.1 = next σ + len d ∧
    info d = inf.
Proof.
  cbn zeta. unfold from_hdf5.
  destruct (from_hdf5_loop_alloc fmt n_max skip f σ (ingest_start inf))
    as (Hcells & _ & Hok).
  destruct (from_hdf5_loop _ _ _ _ _ _ _) as [σ' r]. cbn [fst snd] in *.
  split; [done|]. intros d Hd. destruct r as [st'|e]; [|done].
  cbn [rmap rbind] in Hd. injection Hd as <-.
  destruct (Hok st' eq_refl) as (k & Hmols & Hn & Hinfo).
  cbn [ingest_start obj mols app] in Hmols. cbn [ingest_start obj] in Hinfo.
  assert (len (obj st') = k) as Hk.
  { unfold len. by rewrite Hmols, length_seq. }
  rewrite Hk. split_and!; [done| | |done|done].
  - rewrite Hmols. apply NoDup_seq.
  - intros l. rewrite Hmols, elem_of_seq. lia.
Qed.

Lemma from_hdf5_loop_all_readable fmt n_max skip f σ st :
  Forall (λ ng, is_ok (read_group build_molecule fmt ng.2) = true) f →
  from_hdf5_loop build_molecule fmt n_max skip f σ st
  = from_hdf5_loop build_molecule fmt n_max true f σ st.
Proof.
  intros Hok. revert σ st. induction Hok as [|[name g] f Hg _ IH]; intros σ st; [done|].
  cbn [from_hdf5_loop]. cbn [snd] in Hg.
  destruct (cap_exceeded n_max (obj st)); [done|].
  destruct (read_group build_molecule fmt g) as [m|e]; [|done].
  cbn [alloc]. apply IH.
Qed.

Lemma from_hdf5_loop_strict_Ok fmt f σ st σ' st' :
  from_hdf5_loop build_molecule fmt None false f σ st = (σ', Ok st') →
  Forall (λ ng, is_ok (read_group build_molecule fmt ng.2) = true) f.
Proof.
  revert σ st. induction f as [|[name g] f IH]; intros σ st; [by constructor|].
  cbn [from_hdf5_loop cap_exceeded].
  destruct (read_group build_molecule fmt g) as [m|e] eqn:Hread; [|done].
  cbn [alloc]. intros Hrun. constructor.
  - cbn [snd]. by rewrite Hread.
  - by eapply IH.
Qed.

(** X9.  When every group of the archive can be read, [skip_errs] makes no
    difference, whatever the cap.  Without [skip_errs] and without cap,
    [from_hdf5] returns a container exactly when every group can be read,
    and the container then holds all of them. *)
Theorem from_hdf5_strict_mode fmt f inf σ :
  (Forall (λ ng, is_ok (read_group build_molecule fmt ng.2) = true) f →
   ∀ n_max,
     from_hdf5 build_molecule f fmt n_max false inf σ
     = from_hdf5 build_molecule f fmt n_max true inf σ) ∧
  (is_ok (from_hdf5 build_molecule f fmt None false inf σ).2 = true
   ↔ Forall (λ ng, is_ok (read_group build_molecule fmt ng.2) = true) f) ∧
  (∀ σ' d,
     from_hdf5 build_molecule f fmt None false inf σ = (σ', Ok d) →
     cell σ' <$> mols d = readable build_molecule fmt f ∧ len d = length f).
Proof.
  assert (Forall (λ ng, is_ok (read_group build_molecule fmt ng.2) = true) f →
          ∀ n_max,
            from_hdf5 build_molecule f fmt n_max false inf σ
            = from_hdf5 build_molecule f fmt n_max true inf σ) as Hsame.
  { intros Hok n_max. unfold from_hdf5. by rewrite from_hdf5_loop_all_readable. }
  assert (∀ σ' d, from_hdf5 build_molecule f fmt None false inf σ = (σ', Ok d) →
            Forall (λ ng, is_ok (read_group build_molecule fmt ng.2) = true) f)
    as Hinv.
  { intros σ' d. unfold from_hdf5.
    destruct (from_hdf5_loop _ _ _ _ _ _ _) as [σ1 [st1|e]] eqn:Hrun; [|done].
    intros _. by eapply from_hdf5_loop_strict_Ok. }
  split_and!; [exact Hsame| |].
  - split.
    + destruct (from_hdf5 build_molecule f fmt None false inf σ) as [σ' [d|e]] eqn:Hrun;
        [|done].
      intros _. by eapply Hinv.
    + intros Hok. rewrite (Hsame Hok).
      destruct (from_hdf5_skip_run build_molecule fmt None f inf σ)
        as (σ' & st' & _ & -> & _). done.
  - intros σ' d Hrun. pose proof (Hinv σ' d Hrun) as Hok.
    rewrite (Hsame Hok) in Hrun.
    destruct (from_hdf5_skip_run build_molecule fmt None f inf σ)
      as (σ1 & st1 & _ & Hfrom & Hvals & _).
    rewrite Hfrom in Hrun. injection Hrun as <- <-.
    cbn [within_cap] in Hvals. split; [done|].
    unfold len. rewrite <- (length_fmap (cell σ1)), Hvals.
    pose proof (readable_unreadable_length build_molecule fmt f) as Hlen.
    rewrite (unreadable_all_ok build_molecule fmt f Hok) in Hlen. lia.
Qed.

(** X10.  [from_spice] reads with the SPICE keys and units, never raises and
    cannot be capped: it returns every readable group of the archive, in
    archive order, and leaves the others out. *)
Theorem from_spice_loads_all_readable (bohr hartree PARTICLE : PhysUnit)
    (unit_div : PhysUnit → PhysUnit → PhysUnit) f inf σ :
  let spice :=
    {| element_key := "atomic_numbers";
       energy_key := "dft_total_energy";
       xyz_key := "conformations";
       grad_key := "dft_total_gradient";
       hdf5_distance := bohr;
       hdf5_energy := unit_div hartree PARTICLE;
       hdf5_force := unit_div (unit_div hartree PARTICLE) bohr |} in
  ∃ σ' d,
    from_spice build_molecule bohr hartree PARTICLE unit_div f inf σ = (σ', Ok d) ∧
    cell σ' <$> mols d = readable build_molecule spice f ∧
    len d + unreadable build_molecule spice f = length f ∧
    info d = inf.
Proof.
  intros spice. unfold from_spice. cbn zeta. fold spice.
  destruct (from_hdf5_skip_run build_molecule spice None f inf σ)
    as (σ' & st' & Hrun & Hfrom & Hvals & _).
  exists σ', (obj st'). cbn [within_cap] in Hvals. split_and!; [done|done| |].
  - unfold len. rewrite <- (length_fmap (cell σ')), Hvals.
    apply readable_unreadable_length.
  - destruct (from_hdf5_loop_alloc spice None true f σ (ingest_start inf))
      as (_ & _ & Hok).
    rewrite Hrun in Hok. destruct (Hok st' eq_refl) as (k & _ & _ & Hinfo).
    exact Hinfo.
Qed.

End IngestionMore.

(** ** Archives: what [save_npz] touches *)

Section PersistenceMore.
Context {Mol Npz Data : Type}.
Variable mol_compress : Mol → Npz.
Variable mol_load : Npz → result Mol.
Variable persisted : Mol → Data.
Implicit Types (fs : gmap path (node Npz)) (σ : store Mol) (p q k : path).

Lemma save_npz_loop_changes p (todo : list (nat * loc)) σ fs k :
  (save_npz_loop mol_compress p todo σ fs).1 !! k = fs !! k ∨
  (∃ id c, id ∈ todo.*1 ∧ k = npz_path p id ∧
     (save_npz_loop mol_compress p todo σ fs).1 !! k = Some (File c) ∧
     fs !! k ≠ Some Dir).
Proof.
  revert fs. induction todo as [|[id l] todo IH]; intros fs; [by left|].
  cbn [save_npz_loop].
  destruct (compress_to_cases mol_compress (npz_path p id) (cell σ l) fs)
    as [[e ->]|[Hfree ->]]; [by left|].
  destruct (IH (<[npz_path p id := File (mol_compress (cell σ l))]> fs))
    as [Hsame|(id' & c & Hid' & -> & Hfile & Hnd)].
  - destruct (decide (k = npz_path p id)) as [->|Hne].
    + right. exists id, (mol_compress (cell σ l)).
      rewrite Hsame, lookup_insert_eq. split_and!; [by left|done|done|done].
    + left. by rewrite Hsame, lookup_insert_ne.
  - right. exists id', c. split_and!; [by right|done|done|].
    destruct (decide (npz_path p id' = npz_path p id)) as [Heq|Hne].
    + by rewrite Heq.
    + by rewrite lookup_insert_ne in Hnd.
Qed.

(** X11.  Whatever its outcome, [save_npz] on a plain path changes nothing
    but the archives [<id>.npz] of its own positions directly below the path,
    and directories it creates on the way to the path: no entry is removed,
    no directory is replaced, and every other file stays as it is. *)
Theorem save_npz_frame (self : PDBDataset) p (overwrite : bool) σ fs :
  plain_path p = true →
  let fs' := (save_npz mol_compress self p overwrite σ fs).1 in
  (∀ k, (∀ i, i < len self → k ≠ npz_path p i) →
     fs' !! k = fs !! k ∨
     (fs !! k = None ∧ fs' !! k = Some Dir ∧ k `prefix_of` p)) ∧
  (∀ k, is_Some (fs !! k) → is_Some (fs' !! k)) ∧
  (∀ k, fs !! k = Some Dir → fs' !! k = Some Dir).
Proof.
  intros _. cbn zeta.
  assert (∀ k,
    (save_npz mol_compress self p overwrite σ fs).1 !! k = fs !! k ∨
    (fs !! k = None ∧ (save_npz mol_compress self p overwrite σ fs).1 !! k = Some Dir ∧
     k `prefix_of` p) ∨
    (∃ i c, i < len self ∧ k = npz_path p i ∧
       (save_npz mol_compress self p overwrite σ fs).1 !! k = Some (File c) ∧
       fs !! k ≠ Some Dir)) as Hcases.
  { intros k. unfold save_npz.
    destruct (path_exists fs p && negb overwrite); [by left|].
    unfold makedirs.
    pose proof (makedirs_from_changes [] p fs) as Hmk.
    destruct (makedirs_from [] p fs) as [fs1 [[]|e]]; cbn [fst] in Hmk.
    - pose proof (save_npz_loop_changes p (enumerate (mols self)) σ fs1 k) as Hsv.
      destruct (save_npz_loop _ _ _ _ _) as [fs2 r]. cbn [fst] in *.
      destruct Hsv as [Hsame|(id & c & Hid & -> & Hfile & Hnd)].
      + rewrite Hsame. destruct (Hmk k) as [?|(?&?&?)]; [by left|right; left; done].
      + right; right. exists id, c.
        rewrite enumerate_fst in Hid. apply elem_of_seq in Hid.
        split_and!; [unfold len; lia|done|done|].
        destruct (Hmk (npz_path p id)) as [Heq|(_ & _ & Hpre)].
        * by rewrite <- Heq.
        * destruct Hpre as [t Ht]. apply (f_equal length) in Ht.
          unfold npz_path in Ht. rewrite !length_app in Ht. cbn in Ht. lia.
    - cbn [fst]. destruct (Hmk k) as [?|(?&?&?)]; [by left|right; left; done]. }
  split_and!.
  - intros k Hk. destruct (Hcases k) as [?|[?|(i & c & Hi & -> & _)]]; [by left|by right|].
    by destruct (Hk i Hi).
  - intros k [x Hx]. destruct (Hcases k) as [->|[(Hn & _)|(i & c & _ & _ & -> & _)]];
      [by exists x|congruence|by eexists].
  - intros k Hk. destruct (Hcases k) as [->|[(Hn & _)|(i & c & _ & _ & _ & Hnd)]];
      [done|congruence|done].
Qed.

Lemma npz_paths_mono p (n n' : nat) k :
  n ≤ n' → k ∈ npz_paths p n → k ∈ npz_paths p n'.
Proof.
  unfold npz_paths. intros Hn (i & -> & Hi%elem_of_seq)%list_elem_of_fmap.
  apply list_elem_of_fmap. exists i. split; [done|]. apply elem_of_seq. lia.
Qed.

Lemma npz_path_not_prefix p (id : nat) : ¬ npz_path p id `prefix_of` p.
Proof.
  intros [k Hk]. apply (f_equal length) in Hk.
  unfold npz_path in Hk. rewrite !length_app in Hk. cbn [length] in Hk. lia.
Qed.

(** Saving into a directory that holds the archives of an earlier save. *)
Lemma save_into_archive_dir (self : PDBDataset) p (overwrite : bool) σ fs
    (m : nat) (old : nat → Npz) :
  holds_archives p m old fs →
  overwrite = true ∨ fs !! p = None →
  ∃ fs2,
    save_npz mol_compress self p overwrite σ fs = (fs2, Ok ()) ∧
    holds_archives p (m `max` len self)
      (λ i, if decide (i < len self) then mol_compress (cell σ (mols self !!! i))
            else old i) fs2.
Proof.
  intros (Hin & Hout & Hanc) Hmode. unfold save_npz.
  assert (path_exists fs p && negb overwrite = false) as ->.
  { destruct Hmode as [->|Hp]; [apply andb_false_r|].
    unfold path_exists. rewrite bool_decide_false; [done|].
    rewrite Hp. by intros [? ?]. }
  unfold makedirs.
  destruct (makedirs_from_ok [] p fs) as (fs1 & Hmk & Hfr1).
  { intros q c _ Hq. by apply Hanc. }
  pose proof (makedirs_from_changes [] p fs) as Hch1.
  pose proof (makedirs_from_dirs [] p fs fs1 Hmk) as Hthere.
  rewrite Hmk in Hch1 |- *. cbn [fst app] in Hch1, Hfr1, Hthere.
  assert (∀ id, fs1 !! npz_path p id = fs !! npz_path p id) as Hsame1.
  { intros id. apply Hfr1, npz_path_not_prefix. }
  assert (∀ k, p `prefix_of` k → p ≠ k → fs1 !! k = fs !! k) as Hbelow1.
  { intros k Hpre Hne. apply Hfr1. intros Hk. apply Hne. by apply (anti_symm prefix). }
  destruct (save_npz_loop_ok mol_compress p (enumerate (mols self)) σ fs1)
    as (fs2 & -> & Hfiles & Hfr2).
  { rewrite enumerate_fst. apply NoDup_seq. }
  { exact Hthere. }
  { intros id _. rewrite Hsame1. intros Hdir.
    assert (npz_path p id ∈ npz_paths p m) as Hmem.
    { apply Hout.
      - by apply prefix_app_r.
      - intros H. apply (npz_path_not_prefix p id). by rewrite <- H.
      - by exists Dir. }
    unfold npz_paths in Hmem.
    apply list_elem_of_fmap in Hmem as (i & Hi%(inj (npz_path p)) & Hm%elem_of_seq).
    subst i. rewrite Hin in Hdir by lia. done. }
  exists fs2. split; [done|]. rewrite enumerate_fst in Hfr2. split_and!.
  - intros i Hi. destruct (decide (i < len self)) as [Hlt|Hge].
    + apply Hfiles, elem_of_enumerate. by apply list_lookup_lookup_total_lt.
    + rewrite Hfr2, Hsame1; [apply Hin; lia|].
      intros id Hid%elem_of_seq Heq%(inj (npz_path p)). unfold len in Hge. lia.
  - intros k Hpre Hne Hk.
    destruct (decide (k ∈ npz_paths p (len self))) as [Hmem|Hnot].
    { eapply npz_paths_mono; [|exact Hmem]. lia. }
    rewrite Hfr2, (Hbelow1 k Hpre Hne) in Hk.
    + eapply npz_paths_mono; [|by apply Hout]. lia.
    + intros id Hid%elem_of_seq ->. apply Hnot. unfold npz_paths.
      apply list_elem_of_fmap. exists id. split; [done|]. apply elem_of_seq.
      unfold len. lia.
  - intros q c Hq. rewrite Hfr2.
    + destruct (Hch1 q) as [->|(_ & -> & _)]; [by apply Hanc|done].
    + intros id _ ->. by apply (npz_path_not_prefix p id).
Qed.

Lemma omap_fmap_Some {A B C} (g : B → option C) (f : A → B) (h : A → C) (l : list A) :
  Forall (λ x, g (f x) = Some (h x)) l → omap g (f <$> l) = h <$> l.
Proof.
  induction 1 as [|x l Hx _ IH]; [done|].
  cbn [fmap list_fmap omap list_omap]. by rewrite Hx, IH.
Qed.

Lemma load_npz_loop_all_ok (paths : list path) fs σ (obj : PDBDataset) :
  Forall (λ q, is_ok (load_from mol_load q fs) = true) paths →
  Forall (λ l, l < next σ) (mols obj) →
  ∃ σ' obj',
    load_npz_loop mol_load paths fs σ obj = (σ', Ok obj') ∧
    persisted <$> (cell σ' <$> mols obj')
    = (persisted <$> (cell σ <$> mols obj))
      ++ omap (λ q, persisted <$> ok_value (load_from mol_load q fs)) paths.
Proof.
  intros Hok. apply (load_npz_loop_ok mol_load persisted).
  induction Hok as [|q paths Hq _ IH]; [by constructor|].
  destruct (load_from mol_load q fs) as [m|e] eqn:Hload; [|done].
  cbn [omap list_omap]. rewrite Hload. cbn [ok_value fmap option_fmap option_map].
  constructor; [|exact IH]. by exists m.
Qed.

(** Loading a directory that holds archives which can all be loaded. *)
Lemma load_archive_dir p (n : nat) (content : nat → Npz) fs (σ0 : store Mol)
    (D : nat → Data) (keep_order : bool) :
  holds_archives p n content fs →
  (∀ i, i < n → ∃ m', mol_load (content i) = Ok m' ∧ persisted m' = D i) →
  ∃ σ' self',
    load_npz mol_load p keep_order fs σ0 = (σ', Ok self') ∧
    len self' = n ∧
    persisted <$> (cell σ' <$> mols self') ≡ₚ D <$> seq 0 n ∧
    (keep_order = true →
     persisted <$> (cell σ' <$> mols self') = D <$> load_order n).
Proof.
  intros (Hin & Hout & _) Hload.
  assert (rglob_npz p fs ≡ₚ npz_paths p n) as Hglob.
  { apply rglob_npz_Permutation; [|done]. intros i Hi. by rewrite Hin. }
  set (g := λ q, persisted <$> ok_value (load_from mol_load q fs)).
  assert (∀ i, i < n → g (npz_path p i) = Some (D i)) as Hg.
  { intros i Hi. unfold g, load_from. rewrite (Hin i Hi).
    destruct (Hload i Hi) as (m' & -> & <-). done. }
  assert (∀ I : list nat, I ≡ₚ seq 0 n → omap g (npz_path p <$> I) = D <$> I) as HgI.
  { intros I HI. apply omap_fmap_Some, Forall_forall. intros i Hi.
    rewrite HI in Hi. apply elem_of_seq in Hi. apply Hg. lia. }
  set (paths := if keep_order then sorted (rglob_npz p fs) else rglob_npz p fs).
  assert (paths ≡ₚ npz_paths p n) as Hpaths.
  { unfold paths. destruct keep_order; [|done]. unfold sorted.
    by rewrite merge_sort_Permutation. }
  destruct (load_npz_loop_all_ok paths fs σ0 new_dataset) as (σ' & self' & Hrun & Hvals).
  { apply Forall_forall. intros q Hq. rewrite Hpaths in Hq. unfold npz_paths in Hq.
    apply list_elem_of_fmap in Hq as (i & -> & Hi%elem_of_seq).
    pose proof (Hg i ltac:(lia)) as Hgi. unfold g in Hgi.
    by destruct (load_from mol_load (npz_path p i) fs). }
  { by apply Forall_nil. }
  exists σ', self'. cbn [new_dataset mols fmap list_fmap app] in Hvals.
  fold g in Hvals.
  assert (persisted <$> (cell σ' <$> mols self') ≡ₚ D <$> seq 0 n) as Hperm.
  { rewrite Hvals, Hpaths. unfold npz_paths. by rewrite HgI. }
  split_and!; [exact Hrun| |exact Hperm|].
  - apply Permutation_length in Hperm. rewrite !length_fmap, length_seq in Hperm.
    exact Hperm.
  - intros ->. rewrite Hvals. unfold paths.
    rewrite (sorted_npz_paths p n _ Hglob). apply HgI, load_order_Permutation.
Qed.

(** X12.  The round trip holds in every mode: when nothing lies below the
    plain path, and the path is absent or [overwrite] is set, [save_npz]
    succeeds and [load_npz], with or without [keep_order], gives back as many
    molecules with the same persisted data up to order. *)
Theorem save_load_npz_any_mode (self : PDBDataset) p (overwrite keep_order : bool)
    σ fs (σ0 : store Mol) :
  plain_path p = true →
  (∀ k, p `prefix_of` k → p ≠ k → fs !! k = None) →
  (∀ q c, q `prefix_of` p → fs !! q ≠ Some (File c)) →
  overwrite = true ∨ fs !! p = None →
  (∀ l, l ∈ mols self →
     ∃ m, mol_load (mol_compress (cell σ l)) = Ok m ∧
          persisted m = persisted (cell σ l)) →
  ∃ fs2 σ' self',
    save_npz mol_compress self p overwrite σ fs = (fs2, Ok ()) ∧
    load_npz mol_load p keep_order fs2 σ0 = (σ', Ok self') ∧
    len self' = len self ∧
    persisted <$> (cell σ' <$> mols self') ≡ₚ persisted <$> (cell σ <$> mols self).
Proof.
  intros _ Hempty Hanc Hmode Hround.
  destruct (save_into_archive_dir self p overwrite σ fs 0
              (λ _, mol_compress (cell σ 0))) as (fs2 & Hsave & Hdir); [|done|].
  { split_and!; [lia| |done]. intros k Hpre Hne [x Hx].
    pose proof (Hempty k Hpre Hne). congruence. }
  cbn [Nat.max] in Hdir.
  destruct (load_archive_dir p (len self) _ fs2 σ0
              (λ i, persisted (cell σ (mols self !!! i))) keep_order Hdir)
    as (σ' & self' & Hload & Hlen & Hperm & _).
  { intros i Hi. rewrite decide_True by done. apply Hround.
    by apply list_elem_of_lookup_total_2. }
  exists fs2, σ', self'. split_and!; [done|done|done|].
  rewrite Hperm. unfold len.
  rewrite (fmap_seq_lookup_total (λ l, persisted (cell σ l))).
  by rewrite <- list_fmap_compose.
Qed.

(** X13.  [save_npz] never removes an archive: after a dataset has been
    saved to a fresh plain path, saving a second one there with [overwrite]
    and loading gives as many molecules as the longer of the two.  The
    positions of the second dataset come from it, the others are left over
    from the first. *)
Theorem save_npz_keeps_stale_archives (old new : PDBDataset) p
    (σ1 σ2 : store Mol) fs (σ0 : store Mol) :
  plain_path p = true →
  (∀ k, p `prefix_of` k → fs !! k = None) →
  (∀ q c, q `prefix_of` p → fs !! q ≠ Some (File c)) →
  (∀ l, l ∈ mols old → ∃ m, mol_load (mol_compress (cell σ1 l)) = Ok m ∧
                            persisted m = persisted (cell σ1 l)) →
  (∀ l, l ∈ mols new → ∃ m, mol_load (mol_compress (cell σ2 l)) = Ok m ∧
                            persisted m = persisted (cell σ2 l)) →
  ∃ fs1 fs2 σ' self',
    save_npz mol_compress old p false σ1 fs = (fs1, Ok ()) ∧
    save_npz mol_compress new p true σ2 fs1 = (fs2, Ok ()) ∧
    load_npz mol_load p true fs2 σ0 = (σ', Ok self') ∧
    len self' = len old `max` len new ∧
    persisted <$> (cell σ' <$> mols self')
    = (λ i, if decide (i < len new) then persisted (cell σ2 (mols new !!! i))
            else persisted (cell σ1 (mols old !!! i)))
      <$> load_order (len old `max` len new).
Proof.
  intros _ Hfresh Hanc Hold Hnew.
  destruct (save_into_archive_dir old p false σ1 fs 0
              (λ _, mol_compress (cell σ1 0))) as (fs1 & Hsave1 & Hdir1).
  { split_and!; [lia| |done]. intros k Hpre Hne [x Hx].
    pose proof (Hfresh k Hpre). congruence. }
  { right. by apply Hfresh. }
  cbn [Nat.max] in Hdir1.
  destruct (save_into_archive_dir new p true σ2 fs1 (len old) _ Hdir1)
    as (fs2 & Hsave2 & Hdir2); [by left|].
  destruct (load_archive_dir p (len old `max` len new) _ fs2 σ0
              (λ i, if decide (i < len new) then persisted (cell σ2 (mols new !!! i))
                    else persisted (cell σ1 (mols old !!! i))) true Hdir2)
    as (σ' & self' & Hload & Hlen & _ & Hvals).
  { intros i Hi. destruct (decide (i < len new)) as [Hlt|Hge].
    - apply Hnew. by apply list_elem_of_lookup_total_2.
    - rewrite decide_True by lia. apply Hold.
      apply list_elem_of_lookup_total_2. unfold len in *. lia. }
  exists fs1, fs2, σ', self'. split_and!; [done|done|done|done|by apply Hvals].
Qed.

Lemma load_npz_loop_raise (paths : list path) fs σ (obj : PDBDataset) :
  Exists (λ q, is_ok (load_from mol_load q fs) = false) paths →
  ∃ e q, q ∈ paths ∧ load_from mol_load q fs = Raise e ∧
         (load_npz_loop mol_load paths fs σ obj).2 = Raise e.
Proof.
  revert σ obj. induction paths as [|q paths IH]; intros σ obj Hex.
  { by apply Exists_nil in Hex. }
  cbn [load_npz_loop]. destruct (load_from mol_load q fs) as [m|e] eqn:Hq.
  - apply Exists_cons in Hex as [Hbad|Hex]; [by rewrite Hq in Hbad|].
    cbn [alloc].
    destruct (IH (Store (<[next σ := m]> (cell σ)) (S (next σ)))
                (append obj (next σ)) Hex) as (e & q' & Hq' & Hload & Hrun).
    exists e, q'. split_and!; [by right|done|done].
  - exists e, q. split_and!; [by left|done|done].
Qed.

(** X14.  When no entry below the plain path is named [*.npz] (the path is
    missing, is a file, or is a directory without archives), [load_npz]
    returns an empty container without any error, in either order mode. *)
Theorem load_npz_nothing_to_load p (keep_order : bool) fs (σ : store Mol) :
  plain_path p = true →
  (∀ k : path, is_Some (fs !! k) → is_npz_below p k = false) →
  load_npz mol_load p keep_order fs σ = (σ, Ok new_dataset).
Proof.
  intros _ Hnone. unfold load_npz.
  assert (rglob_npz p fs = []) as ->.
  { apply elem_of_nil_inv. intros k. unfold rglob_npz.
    rewrite list_elem_of_filter, elem_of_map_keys. intros [Hb Hk].
    rewrite (Hnone k Hk) in Hb. done. }
  by destruct keep_order.
Qed.

(** X15.  [load_npz] skips nothing: when some entry below the path named
    [*.npz] cannot be loaded (a directory, or a file [PDBMolecule.load]
    rejects), the call raises the error of such an entry and returns no
    container, in either order mode. *)
Theorem load_npz_propagates_errors p (keep_order : bool) fs (σ : store Mol) (k : path) :
  is_Some (fs !! k) →
  is_npz_below p k = true →
  is_ok (load_from mol_load k fs) = false →
  ∃ e q,
    is_npz_below p q = true ∧
    load_from mol_load q fs = Raise e ∧
    (load_npz mol_load p keep_order fs σ).2 = Raise e.
Proof.
  intros Hk Hbelow Hbad.
  assert (k ∈ rglob_npz p fs) as Hin.
  { unfold rglob_npz. by rewrite list_elem_of_filter, elem_of_map_keys. }
  set (paths := if keep_order then sorted (rglob_npz p fs) else rglob_npz p fs).
  assert (∀ q, q ∈ paths ↔ q ∈ rglob_npz p fs) as Hpaths.
  { intros q. unfold paths. destruct keep_order; [|done]. unfold sorted.
    by rewrite merge_sort_Permutation. }
  destruct (load_npz_loop_raise paths fs σ new_dataset) as (e & q & Hq & Hload & Hrun).
  { apply Exists_exists. exists k. split; [by apply Hpaths|done]. }
  exists e, q. split_and!; [|done|exact Hrun].
  apply Hpaths in Hq. unfold rglob_npz in Hq.
  by apply list_elem_of_filter in Hq as [? _].
Qed.

Lemma makedirs_from_file (pre rest : path) fs (c : Npz) :
  rest ≠ [] →
  fs !! (pre ++ rest) = Some (File c) →
  (∀ q : path, q ≠ [] → q `prefix_of` rest → q ≠ rest → fs !! (pre ++ q) = Some Dir) →
  makedirs_from pre rest fs = (fs, Raise (FileExistsError (pre ++ rest))).
Proof.
  revert pre. induction rest as [|c0 rest IH]; intros pre Hne Hfile Hdirs; [done|].
  cbn [makedirs_from]. destruct rest as [|c1 rest].
  - by rewrite Hfile.
  - rewrite (Hdirs [c0]); [|done| |done].
    + rewrite (IH (pre ++ [c0])); [by rewrite <- app_assoc|done| |].
      * by rewrite <- app_assoc.
      * intros q Hq Hpre Hneq. rewrite <- app_assoc. apply (Hdirs (c0 :: q)).
        -- done.
        -- by apply prefix_cons.
        -- by intros [= ->].
    + by exists (c1 :: rest).
Qed.

(** X16.  A path that is a file is never written to: with or without
    [overwrite], [save_npz] raises [FileExistsError] for it and leaves the
    file system as it is. *)
Theorem save_npz_onto_file (self : PDBDataset) p (c : Npz) (overwrite : bool) σ fs :
  p ≠ [] →
  fs !! p = Some (File c) →
  (∀ q : path, q ≠ [] → q `prefix_of` p → q ≠ p → fs !! q = Some Dir) →
  save_npz mol_compress self p overwrite σ fs = (fs, Raise (FileExistsError p)).
Proof.
  intros Hne Hfile Hdirs. unfold save_npz, path_exists.
  rewrite bool_decide_true by (rewrite Hfile; eauto).
  destruct overwrite; cbn [negb andb]; [|done].
  unfold makedirs. by rewrite (makedirs_from_file [] p fs c).
Qed.

End PersistenceMore.

(** ** The key migration of [to_json.py] *)

Section ToJsonFacts.
Context {V : Type}.
Variable upper : string → string.
Implicit Types (d : gmap string V) (k K : string) (ks : list string).

Lemma last_renamed_to_Some ks K k :
  last_renamed_to upper ks K = Some k → k ∈ ks ∧ upper k = K ∧ k ≠ K.
Proof.
  unfold last_renamed_to. intros H%last_Some_elem_of.
  apply list_elem_of_filter in H. tauto.
Qed.

Lemma last_renamed_to_None ks K k :
  last_renamed_to upper ks K = None → k ∈ ks → upper k = K → k = K.
Proof.
  unfold last_renamed_to. intros H%last_None Hk HK.
  destruct (decide (k = K)) as [|Hne]; [done|].
  assert (k ∈ filter (λ k, upper k = K ∧ k ≠ K) ks) as Hin
    by by apply list_elem_of_filter.
  rewrite H in Hin. by apply elem_of_nil in Hin.
Qed.

(** What the loop leaves under every key. *)
Lemma rename_keys_spec ks d :
  NoDup ks →
  (∀ k, k ∈ ks → is_Some (d !! k)) →
  (∀ k, k ∈ ks → upper (upper k) = upper k) →
  ∃ d',
    rename_keys upper ks d = Ok d' ∧
    (∀ K, upper K = K →
       d' !! K = match last_renamed_to upper ks K with
                 | Some k => d !! k
                 | None => d !! K
                 end) ∧
    (∀ K, upper K ≠ K → d' !! K = if decide (K ∈ ks) then None else d !! K).
Proof.
  revert d. induction ks as [|k0 ks IH]; intros d Hnd Hin Hidem.
  { exists d. split_and!; [done|done|].
    intros K _. rewrite decide_False; [done|]. by intros ?%elem_of_nil. }
  apply NoDup_cons in Hnd as [Hk0 Hnd].
  destruct (Hin k0) as [v0 Hv0]; [by left|].
  cbn [rename_keys]. unfold rename_key. rewrite Hv0. cbn [rbind].
  set (d1 := <[upper k0 := v0]> (delete k0 d)).
  assert (∀ k, k ≠ upper k0 → k ≠ k0 → d1 !! k = d !! k) as Hother.
  { intros k H1 H2. unfold d1. by rewrite lookup_insert_ne, lookup_delete_ne. }
  assert (upper (upper k0) = upper k0) as Hfix0 by (apply Hidem; by left).
  destruct (IH d1 Hnd) as (d' & Hrun & Hup & Hlow).
  { intros k Hk. destruct (decide (k = upper k0)) as [->|Hne].
    - unfold d1. rewrite lookup_insert_eq. eauto.
    - rewrite Hother; [apply Hin; by right|done|]. by intros ->. }
  { intros k Hk. apply Hidem. by right. }
  exists d'. split_and!; [done| |].
  - intros K HK. rewrite (Hup K HK). unfold last_renamed_to in *.
    rewrite filter_cons.
    destruct (decide (upper k0 = K ∧ k0 ≠ K)) as [[Hk0K Hne0]|Hnot].
    + rewrite last_cons.
      destruct (last (filter (λ k, upper k = K ∧ k ≠ K) ks)) as [k|] eqn:Hlast.
      * apply last_Some_elem_of, list_elem_of_filter in Hlast as [[HkK Hne] Hk].
        apply Hother; [congruence|]. by intros ->.
      * subst K. unfold d1. by rewrite lookup_insert_eq.
    + destruct (last (filter (λ k, upper k = K ∧ k ≠ K) ks)) as [k|] eqn:Hlast.
      * apply last_Some_elem_of, list_elem_of_filter in Hlast as [[HkK Hne] Hk].
        apply Hother; [|by intros ->].
        intros ->. apply Hne. congruence.
      * destruct (decide (upper k0 = K)) as [HK0|HK0].
        -- assert (k0 = K) as ->.
           { destruct (decide (k0 = K)); [done|]. destruct Hnot. done. }
           unfold d1. rewrite HK0. by rewrite lookup_insert_eq.
        -- apply Hother; [congruence|]. intros ->. by apply HK0.
  - intros K HK. rewrite (Hlow K HK).
    assert (K ≠ upper k0) as Hne by (intros ->; by apply HK).
    destruct (decide (K ∈ ks)) as [Hmem|Hnmem].
    + rewrite decide_True; [done|by right].
    + destruct (decide (K = k0)) as [->|Hne0].
      * rewrite decide_True by by left.
        unfold d1. by rewrite lookup_insert_ne, lookup_delete_eq.
      * rewrite decide_False.
        -- by apply Hother.
        -- by intros [?|?]%elem_of_cons.
Qed.

(** X17.  The loop never meets a missing key.  Afterwards every key is in
    upper case and comes from a key of the dictionary, every key of the
    dictionary is there in upper case, and when no two keys have the same
    upper case every value is found under the upper case of its key. *)
Theorem rename_keys_upper_case ks d :
  NoDup ks →
  (∀ k, k ∈ ks ↔ is_Some (d !! k)) →
  (∀ k, k ∈ ks → upper (upper k) = upper k) →
  ∃ d',
    rename_keys upper ks d = Ok d' ∧
    (∀ K, is_Some (d' !! K) → upper K = K ∧ ∃ k, k ∈ ks ∧ K = upper k) ∧
    (∀ k, k ∈ ks → is_Some (d' !! upper k)) ∧
    ((∀ k k', k ∈ ks → k' ∈ ks → upper k = upper k' → k = k') →
     ∀ k, k ∈ ks → d' !! upper k = d !! k).
Proof.
  intros Hnd Hdom Hidem.
  destruct (rename_keys_spec ks d Hnd) as (d' & Hrun & Hup & Hlow); [|done|].
  { intros k Hk. by apply Hdom. }
  exists d'. split_and!; [done| | |].
  - intros K HK. destruct (decide (upper K = K)) as [Hfix|Hnfix].
    + split; [done|]. rewrite (Hup K Hfix) in HK.
      destruct (last_renamed_to upper ks K) as [k|] eqn:Hlast.
      * apply last_renamed_to_Some in Hlast as (Hk & <- & _). by exists k.
      * exists K. split; [by apply Hdom|done].
    + rewrite (Hlow K Hnfix) in HK. destruct (decide (K ∈ ks)) as [|Hn].
      * by destruct HK.
      * destruct Hn. by apply Hdom.
  - intros k Hk. rewrite (Hup (upper k)) by by apply Hidem.
    destruct (last_renamed_to upper ks (upper k)) as [k'|] eqn:Hlast.
    + apply last_renamed_to_Some in Hlast as (Hk' & _). by apply Hdom.
    + rewrite <- (last_renamed_to_None _ _ k Hlast Hk eq_refl). by apply Hdom.
  - intros Hinj k Hk. rewrite (Hup (upper k)) by by apply Hidem.
    destruct (last_renamed_to upper ks (upper k)) as [k'|] eqn:Hlast.
    + apply last_renamed_to_Some in Hlast as (Hk' & Heq & _).
      by rewrite (Hinj k' k Hk' Hk Heq).
    + by rewrite <- (last_renamed_to_None _ _ k Hlast Hk eq_refl).
Qed.

(** X18.  When a key that is not in upper case meets its own upper case
    among the keys, the value stored under the upper-case key is lost: the
    result holds the value of the other key, whichever of the two comes
    first in the dictionary. *)
Theorem rename_keys_collision ks d k :
  NoDup ks →
  (∀ k, k ∈ ks → is_Some (d !! k)) →
  (∀ k, k ∈ ks → upper (upper k) = upper k) →
  k ∈ ks → upper k ∈ ks → upper k ≠ k →
  (∀ k', k' ∈ ks → upper k' = upper k → k' = k ∨ k' = upper k) →
  ∃ d',
    rename_keys upper ks d = Ok d' ∧
    d' !! upper k = d !! k ∧
    d' !! k = None.
Proof.
  intros Hnd Hin Hidem Hk Hup Hne Honly.
  destruct (rename_keys_spec ks d Hnd Hin Hidem) as (d' & Hrun & Hfix & Hlow).
  exists d'. split_and!; [done| |].
  - rewrite (Hfix (upper k)) by by apply Hidem.
    destruct (last_renamed_to upper ks (upper k)) as [k'|] eqn:Hlast.
    + apply last_renamed_to_Some in Hlast as (Hk' & Heq & Hne').
      by destruct (Honly k' Hk' Heq) as [->| ->].
    + destruct Hne. symmetry. by apply (last_renamed_to_None ks (upper k) k).
  - rewrite (Hlow k Hne). by rewrite decide_True.
Qed.

End ToJsonFacts.

(** * The further properties on concrete inputs *)

Lemma upper_char_idempotent (c : ascii) : upper_char (upper_char c) = upper_char c.
Proof. by destruct c as [[] [] [] [] [] [] [] []]. Qed.

Lemma upper_ascii_idempotent (s : string) : upper_ascii (upper_ascii s) = upper_ascii s.
Proof.
  induction s as [|c s IH]; [done|].
  cbn [upper_ascii]. by rewrite upper_char_idempotent, IH.
Qed.

Lemma getitem_in_range_iff_witness :
  getitem Simple.demo_dataset (-1) = Ok 1 ∧
  getitem Simple.demo_dataset 2 = Raise IndexError.
Proof.
  destruct (getitem_in_range_iff Simple.demo_dataset (-1)) as (Hok & _).
  destruct (getitem_in_range_iff Simple.demo_dataset 2) as (_ & Hraise & _).
  split.
  - apply Hok. split; [vm_compute; split; congruence|reflexivity].
  - apply Hraise. vm_compute. intros [_ H]. discriminate H.
Defined.

Lemma getitem_append_witness :
  getitem (append Simple.demo_dataset 2) (-2 - 1) = getitem Simple.demo_dataset (-2) ∧
  getitem (append Simple.demo_dataset 2) 1 = getitem Simple.demo_dataset 1.
Proof.
  destruct (getitem_append Simple.demo_dataset 2) as (_ & _ & Hpos & Hneg).
  split.
  - apply Hneg. vm_compute. split; congruence.
  - apply Hpos. vm_compute. split; congruence.
Defined.

Lemma to_dgl_index_error_witness :
  Raising.to_dgl Demo.to_dgl_checked Simple.split_dataset Simple.demo_dataset3
    (Some [0; 5; 1]%Z) (Some [1%Z]) 0%Z Simple.demo_store
  = Raise IndexError ∧
  Raising.to_dgl Demo.to_dgl_checked Simple.split_dataset Simple.demo_dataset3
    (Some [1; 5]%Z) None 0%Z Simple.demo_store
  = Raise (ExternalError "graph") ∧
  Raising.to_dgl Demo.to_dgl_checked Simple.split_dataset Simple.demo_dataset
    (Some [0; 2]%Z) None 0%Z Simple.demo_store
  = Raise IndexError.
Proof.
  destruct (to_dgl_index_error Demo.to_dgl_checked Simple.split_dataset
              Simple.demo_dataset3 [0; 5; 1]%Z Simple.demo_store) as (Hfirst & Hout & _).
  destruct (to_dgl_index_error Demo.to_dgl_checked Simple.split_dataset
              Simple.demo_dataset3 [1; 5]%Z Simple.demo_store) as (Hconv & _).
  destruct (to_dgl_index_error Demo.to_dgl_checked Simple.split_dataset
              Simple.demo_dataset [0; 2]%Z Simple.demo_store) as (_ & _ & Hall & _).
  split_and!.
  - apply (Hfirst [0%Z] 5%Z [1%Z] IndexError); [reflexivity|by repeat constructor|].
    apply Hout. vm_compute. intros [_ H]. discriminate H.
  - apply (Hconv [] 1%Z [5%Z] (ExternalError "graph")); [reflexivity|constructor|].
    reflexivity.
  - destruct Hall as [Hraise _].
    + intros l Hl.
      apply elem_of_cons in Hl as [->|Hl]; [reflexivity|].
      apply list_elem_of_singleton in Hl as ->. reflexivity.
    + apply Hraise. apply Exists_cons_tl, Exists_cons_hd.
      vm_compute. intros [_ H]. discriminate H.
Defined.


Lemma filter_validity_idempotent_witness :
  (filter_validity Simple.conf_check
     (filter_validity Simple.conf_check Simple.demo_dataset3 Simple.template_scorer
        (1, 1)%Z Simple.demo_store).2
     Simple.template_scorer (1, 1)%Z
     (filter_validity Simple.conf_check Simple.demo_dataset3 Simple.template_scorer
        (1, 1)%Z Simple.demo_store).1).2
  = {| mols := [0; 1]; info := false |}.
Proof.
  destruct (filter_validity_idempotent Simple.conf_check Simple.demo_dataset3
              Simple.template_scorer (1, 1)%Z Simple.demo_store) as (Hsame & _).
  - intros l _. reflexivity.
  - rewrite Hsame. reflexivity.
Defined.

Lemma parametrize_all_succeed_witness :
  (parametrize Simple.parametrize Simple.demo_dataset Simple.template_scorer
     "_amber99sbildn" None Simple.demo_store).2 = Ok () ∧
  Simple.labels
    (cell (parametrize Simple.parametrize Simple.demo_dataset Simple.template_scorer
             "_amber99sbildn" None Simple.demo_store).1 1)
  = [("_amber99sbildn", [(0, 0); (200, 0)]%Z)].
Proof.
  destruct (parametrize_all_succeed Simple.parametrize Simple.demo_dataset
              Simple.template_scorer "_amber99sbildn" None Simple.demo_store)
    as (_ & Hall).
  destruct Hall as (Hrun & Howned).
  - repeat constructor.
  - rewrite Hrun. split; [reflexivity|].
    destruct Howned as (Hcells & _); [by_evaluation|].
    cbn [fst]. rewrite (Hcells 1); [reflexivity|by_evaluation].
Defined.

Lemma from_hdf5_fresh_objects_witness :
  ∃ d,
    (from_hdf5 Arrays.build_molecule Arrays.demo_archive Arrays.demo_format None true
       false Arrays.demo_store).2 = Ok d ∧
    mols d = [3; 4] ∧ NoDup (mols d).
Proof.
  destruct (from_hdf5_fresh_objects Arrays.build_molecule Arrays.demo_format None true
              Arrays.demo_archive false Arrays.demo_store) as (_ & Hnew).
  eexists. split; [reflexivity|].
  destruct (Hnew _ eq_refl) as (Hmols & Hnd & _).
  split; [exact Hmols|exact Hnd].
Defined.

Lemma from_hdf5_strict_mode_witness :
  from_hdf5 Arrays.build_molecule Demo.good_archive Arrays.demo_format (Some 0%Z)
    false true Arrays.demo_store
  = from_hdf5 Arrays.build_molecule Demo.good_archive Arrays.demo_format (Some 0%Z)
      true true Arrays.demo_store ∧
  is_ok (from_hdf5 Arrays.build_molecule Demo.good_archive Arrays.demo_format None
           false true Arrays.demo_store).2 = true.
Proof.
  destruct (from_hdf5_strict_mode Arrays.build_molecule Arrays.demo_format
              Demo.good_archive true Arrays.demo_store) as (Hsame & Hiff & _).
  assert (Forall (λ ng, is_ok (read_group Arrays.build_molecule Arrays.demo_format ng.2)
                        = true) Demo.good_archive) as Hok by repeat constructor.
  split; [by apply Hsame|by apply Hiff].
Defined.

Lemma save_npz_frame_witness :
  is_Some ((save_npz id Simple.demo_dataset ["data"] true Simple.demo_store
              {[ ["data"; "notes.txt"] := File Simple.mol_c ]}).1
           !! ["data"; "notes.txt"]).
Proof.
  destruct (save_npz_frame id Simple.demo_dataset ["data"] true Simple.demo_store
              {[ ["data"; "notes.txt"] := File Simple.mol_c ]} eq_refl)
    as (_ & Hkept & _).
  apply Hkept. rewrite lookup_singleton_eq. by eexists.
Defined.

Lemma save_load_npz_any_mode_witness :
  ∃ fs2 σ' self',
    save_npz id Simple.demo_dataset ["data"] true Simple.demo_store
      {[ ["data"] := Dir ]} = (fs2, Ok ()) ∧
    load_npz Ok ["data"] false fs2 Simple.demo_store = (σ', Ok self') ∧
    len self' = 2.
Proof.
  destruct (save_load_npz_any_mode id Ok id Simple.demo_dataset ["data"] true false
              Simple.demo_store {[ ["data"] := Dir ]} Simple.demo_store)
    as (fs2 & σ' & self' & Hsave & Hload & Hlen & _).
  - reflexivity.
  - intros k _ Hne. by apply lookup_singleton_ne.
  - intros q c _. destruct (decide (q = ["data"])) as [->|Hne].
    + by rewrite lookup_singleton_eq.
    + rewrite lookup_singleton_ne by done. done.
  - by left.
  - intros l _. eexists. split; reflexivity.
  - exists fs2, σ', self'. split_and!; [exact Hsave|exact Hload|exact Hlen].
Defined.

Lemma save_npz_keeps_stale_archives_witness :
  ∃ fs1 fs2 σ' self',
    save_npz id Simple.demo_dataset ["data"] false Simple.demo_store ∅ = (fs1, Ok ()) ∧
    save_npz id Demo.short_dataset ["data"] true Simple.demo_store fs1 = (fs2, Ok ()) ∧
    load_npz Ok ["data"] true fs2 Simple.demo_store = (σ', Ok self') ∧
    len self' = 2 ∧
    cell σ' <$> mols self' = [Simple.mol_c; Simple.mol_b].
Proof.
  destruct (save_npz_keeps_stale_archives id Ok id Simple.demo_dataset
              Demo.short_dataset ["data"] Simple.demo_store Simple.demo_store ∅
              Simple.demo_store)
    as (fs1 & fs2 & σ' & self' & Hsave1 & Hsave2 & Hload & Hlen & Hvals).
  - reflexivity.
  - intros k _. apply lookup_empty.
  - intros q c _. rewrite lookup_empty. discriminate.
  - intros l _. eexists. split; reflexivity.
  - intros l _. eexists. split; reflexivity.
  - exists fs1, fs2, σ', self'. rewrite !list_fmap_id in Hvals.
    split_and!; [exact Hsave1|exact Hsave2|exact Hload|exact Hlen|].
    rewrite Hvals. reflexivity.
Defined.

Lemma load_npz_nothing_to_load_witness :
  load_npz (Ok : Simple.molecule → result Simple.molecule) ["missing"] true ∅
    Simple.demo_store
  = (Simple.demo_store, Ok new_dataset).
Proof.
  apply (load_npz_nothing_to_load Ok ["missing"] true ∅ Simple.demo_store eq_refl).
  intros k [x Hx]. rewrite lookup_empty in Hx. discriminate Hx.
Defined.

Lemma load_npz_propagates_errors_witness :
  ∃ e, (load_npz (Ok : Simple.molecule → result Simple.molecule) ["data"] false
          {[ ["data"; "0.npz"] := Dir ]} Simple.demo_store).2 = Raise e.
Proof.
  destruct (load_npz_propagates_errors (Ok : Simple.molecule → result Simple.molecule)
              ["data"] false {[ ["data"; "0.npz"] := Dir ]} Simple.demo_store
              ["data"; "0.npz"])
    as (e & q & _ & _ & Hrun).
  - rewrite lookup_singleton_eq. by eexists.
  - reflexivity.
  - unfold load_from. rewrite lookup_singleton_eq. reflexivity.
  - by exists e.
Defined.

Lemma save_npz_onto_file_witness :
  save_npz id Simple.demo_dataset ["data"] true Simple.demo_store
    {[ ["data"] := File Simple.mol_c ]}
  = ({[ ["data"] := File Simple.mol_c ]}, Raise (FileExistsError ["data"])).
Proof.
  apply (save_npz_onto_file id Simple.demo_dataset ["data"] Simple.mol_c true).
  - discriminate.
  - apply lookup_singleton_eq.
  - intros q Hq [t Ht] Hne. destruct q as [|a [|b q]]; [done| |done].
    injection Ht as <- _. done.
Defined.

Lemma rename_keys_upper_case_witness :
  ∃ d',
    rename_keys upper_ascii ["ala"; "Gly"] Demo.charges = Ok d' ∧
    d' !! "ALA" = Some 1%Z ∧ d' !! "GLY" = Some 2%Z.
Proof.
  destruct (rename_keys_upper_case upper_ascii ["ala"; "Gly"] Demo.charges)
    as (d' & Hrun & _ & _ & Hvals).
  - by_evaluation.
  - intros k. unfold Demo.charges.
    rewrite <- elem_of_dom, !dom_insert_L, dom_empty_L.
    rewrite !elem_of_cons, elem_of_nil, !elem_of_union, !elem_of_singleton, elem_of_empty.
    tauto.
  - intros k _. apply upper_ascii_idempotent.
  - exists d'. split; [exact Hrun|].
    assert (∀ k k', k ∈ ["ala"; "Gly"] → k' ∈ ["ala"; "Gly"] →
              upper_ascii k = upper_ascii k' → k = k') as Hinj.
    { intros k k' Hk Hk'.
      apply elem_of_cons in Hk as [->|Hk]; [|apply list_elem_of_singleton in Hk as ->];
      (apply elem_of_cons in Hk' as [->|Hk']; [|apply list_elem_of_singleton in Hk' as ->]);
      first [done|discriminate]. }
    split.
    + apply (Hvals Hinj "ala"). by left.
    + apply (Hvals Hinj "Gly"). by right; left.
Defined.

Lemma rename_keys_collision_witness :
  ∃ d',
    rename_keys upper_ascii ["ALA"; "ala"] Demo.charges_clash = Ok d' ∧
    d' !! "ALA" = Some 2%Z ∧ d' !! "ala" = None.
Proof.
  apply (rename_keys_collision upper_ascii ["ALA"; "ala"] Demo.charges_clash "ala").
  - by_evaluation.
  - intros k Hk.
    apply elem_of_cons in Hk as [->|Hk]; [|apply list_elem_of_singleton in Hk as ->];
      by eexists.
  - intros k _. apply upper_ascii_idempotent.
  - by_evaluation.
  - by_evaluation.
  - discriminate.
  - intros k' Hk' _.
    apply elem_of_cons in Hk' as [->|Hk']; [|apply list_elem_of_singleton in Hk' as ->];
      [by right|by left].
Defined.
